(** * ne_command: the conditional command-polling module

    A shallow embedding of [modules/network/ne/ne_command.py] and the
    properties of its polling loop.  The module sends a batch of CLI
    commands to a device, evaluates the [wait_for] conditionals on the
    output and retries until they hold or the retry budget is used up.

    Python values are a small inductive type.  The effects of [main]
    (calls to [run_commands], calls of the conditional objects,
    [time.sleep], exceptions, [exit_json]/[fail_json]) are threaded
    through a state-and-error monad whose state records every effect in
    program order. *)

From Stdlib Require Import ZArith List String Ascii Bool Lia.
Import ListNotations.

Set Warnings "-register-all,-notation-for-abbreviation".

Local Open Scope string_scope.
Local Open Scope list_scope.
Local Open Scope Z_scope.

(** ** Python values *)

Inductive value : Type :=
| VNone
| VInt (z : Z)
| VStr (s : string)
| VList (items : list value).

Inductive exn : Type :=
| AttributeError (msg : string)
| ValueError (msg : string)
| UnboundLocalError (var : string)
| OtherError (msg : string)
| OverflowError (msg : string).

(** [to_native(exc)]: the text of the exception. *)
Definition to_native (e : exn) : string :=
  match e with
  | AttributeError msg => msg
  | ValueError msg => msg
  | UnboundLocalError var =>
      "local variable '" ++ var ++ "' referenced before assignment"
  | OtherError msg => msg
  | OverflowError msg => msg
  end%string.

(** What a call into a library returns: a value or an exception. *)
Inductive returned (A : Type) : Type :=
| Returns (a : A)
| Raises (e : exn).
Arguments Returns {A} a.
Arguments Raises {A} e.

(** ** [str.split] with a one-character separator *)

Definition newline : ascii := "010"%char.

Fixpoint split (sep : ascii) (s : string) : list string :=
  match s with
  | EmptyString => [EmptyString]
  | String c rest =>
      if Ascii.eqb c sep then EmptyString :: split sep rest
      else match split sep rest with
           | [] => [String c EmptyString]
           | piece :: pieces => String c piece :: pieces
           end
  end.

(** [sep in s] *)
Fixpoint occurs (sep : ascii) (s : string) : bool :=
  match s with
  | EmptyString => false
  | String c rest => Ascii.eqb c sep || occurs sep rest
  end.

(** ** [to_lines] *)

Definition split_item (item : value) : value :=
  match item with
  | VStr s => VList (map VStr (split newline s))
  | _ => item
  end.

(** The [for] loop of [to_lines], with the list [lines] it appends to. *)
Fixpoint to_lines_loop (stdout : list value) (lines : list value) : list value :=
  match stdout with
  | [] => lines
  | item :: rest => to_lines_loop rest (lines ++ [split_item item])
  end.

Definition to_lines (stdout : list value) : list value :=
  to_lines_loop stdout [].

(** ** Module parameters and results *)

Record Command : Type := {
  command : string;
  prompt : option string;
  answer : option string
}.

(** [match] has [choices=['any', 'all']]. *)
Inductive policy : Type := match_any | match_all.

Record params : Type := {
  param_commands : list Command;
  param_wait_for : option (list string);
  param_match : policy;
  param_retries : Z;
  param_interval : Z;
  check_mode : bool
}.

(** A [Conditional] object: its identity (objects are compared by
    identity, the class defines no [__eq__]) and its [raw] attribute. *)
Record conditional : Type := {
  ident : nat;
  raw : string
}.

Definition same_object (a b : conditional) : bool :=
  Nat.eqb (ident a) (ident b).

(** The keyword arguments of [module.exit_json] and [module.fail_json]. *)
Inductive json : Type :=
| exit_json (changed : bool) (warnings : list string)
            (stdout : list value) (stdout_lines : list value)
| fail_json (msg : string) (failed_conditions : option (list string))
            (exception : option exn).

(** ** Effects *)

Inductive event : Type :=
| EvRun (n : nat)            (* the n-th call of run_commands *)
| EvCall (item : conditional) (* item(responses) *)
| EvSleep (secs : Z).         (* time.sleep(secs) *)

Record world : Type := {
  calls : nat;
  log : list event
}.

Definition record (e : event) (w : world) : world :=
  {| calls := calls w; log := log w ++ [e] |}.

Inductive res (A : Type) : Type :=
| Ok (a : A)
| Raise (e : exn)
| Exit (j : json)
| OutOfFuel.
Arguments Ok {A} a.
Arguments Raise {A} e.
Arguments Exit {A} j.
Arguments OutOfFuel {A}.

Definition M (A : Type) : Type := world -> res A * world.

Definition ret {A} (a : A) : M A := fun w => (Ok a, w).

Definition bind {A B} (c : M A) (k : A -> M B) : M B := fun w =>
  match c w with
  | (Ok a, w') => k a w'
  | (Raise e, w') => (Raise e, w')
  | (Exit j, w') => (Exit j, w')
  | (OutOfFuel, w') => (OutOfFuel, w')
  end.

Definition raise {A} (e : exn) : M A := fun w => (Raise e, w).
Definition exit {A} (j : json) : M A := fun w => (Exit j, w).
Definition out_of_fuel {A} : M A := fun w => (OutOfFuel, w).

Definition lift {A} (r : returned A) : M A :=
  match r with
  | Returns a => ret a
  | Raises e => raise e
  end.

Notation "x <- c1 ;; c2" := (bind c1 (fun x => c2))
  (at level 61, c1 at next level, right associativity).
Notation "c1 ;; c2" := (bind c1 (fun _ => c2))
  (at level 61, right associativity).

(** The largest whole number of seconds that [time.sleep] accepts: the
    nanoseconds of a longer sleep do not fit its signed 64-bit clock. *)
Definition max_sleep : Z := 9223372036.

(** [time.sleep] refuses a negative length and one that is too large. *)
Definition sleep_error (secs : Z) : option exn :=
  if secs <? 0 then
    Some (ValueError "sleep length must be non-negative")
  else if max_sleep <? secs then
    Some (OverflowError "timestamp too large to convert to C _PyTime_t")
  else None.

Definition sleep (secs : Z) : M unit := fun w =>
  match sleep_error secs with
  | Some e => (Raise e, w)
  | None => (Ok tt, record (EvSleep secs) w)
  end.

(** [list.remove(x)]: drops the first element equal to [x]. *)
Fixpoint remove_first (x : conditional) (l : list conditional)
  : option (list conditional) :=
  match l with
  | [] => None
  | y :: l' =>
      if same_object y x then Some l'
      else option_map (cons y) (remove_first x l')
  end.

Definition list_remove (x : conditional) (l : list conditional)
  : M (list conditional) :=
  match remove_first x l with
  | Some l' => ret l'
  | None => raise (ValueError "list.remove(x): x not in list")
  end.

(** What [run_commands] can do: return the responses, report a failure
    through [module.fail_json(msg=...)], or raise. *)
Inductive reply : Type :=
| Responded (responses : list value)
| Aborted (msg : string)
| Threw (e : exn).

(** The local variables of [main] that the [while] loop updates;
    [responses] is unassigned until the first round. *)
Record locals : Type := {
  retries : Z;
  conditionals : list conditional;
  responses : option (list value)
}.

Inductive flow : Type :=
| Next (st : locals)    (* the body ran to its end *)
| Break (st : locals).  (* left by [break] *)

Definition is_empty {A} (l : list A) : bool :=
  match l with [] => true | _ => false end.

Definition after (f : flow) : locals :=
  match f with
  | Next st => st
  | Break st => st
  end.

(** ** Reading the log *)

Definition extend (evs : list event) (w : world) : world :=
  {| calls := calls w; log := log w ++ evs |}.

(** The world after one more call of [run_commands]. *)
Definition ran (w : world) : world :=
  {| calls := S (calls w); log := log w ++ [EvRun (calls w)] |}.

Definition is_run (e : event) : bool :=
  match e with EvRun _ => true | _ => false end.

Definition is_sleep (e : event) : bool :=
  match e with EvSleep _ => true | _ => false end.

Definition executions (l : list event) : nat := List.length (filter is_run l).
Definition sleeps (l : list event) : nat := List.length (filter is_sleep l).



(** What a caller sees of an outcome. *)
Definition succeeded {A} (r : res A) : bool :=
  match r with
  | Exit (exit_json _ _ _ _) => true
  | _ => false
  end.


(** [module.params['wait_for'] or list()] *)
Definition given_wait_for (p : params) : list string :=
  match param_wait_for p with
  | Some l => l
  | None => []
  end.

(** The objects that the comprehension builds from [wait_for] when [n]
    objects exist already: one fresh object for each string, in order. *)
Fixpoint objects (n : nat) (wait_for : list string) : list conditional :=
  match wait_for with
  | [] => []
  | c :: rest => {| ident := n; raw := c |} :: objects (S n) rest
  end.

Section Main.

(** The collaborators imported by the module. *)

(** [Conditional(c)]: returns or raises. *)
Variable Conditional_init : string -> returned unit.
(** [item(responses)], for the object built from a raw string. *)
Variable Conditional_call : string -> list value -> returned bool.
(** [run_commands(module, commands)], by the number of earlier calls. *)
Variable device : nat -> list Command -> reply.
(** [check_args(module, warnings)]: the warnings list afterwards. *)
Variable check_args : params -> list string -> list string.

Definition run_commands (commands : list Command) : M (list value) := fun w =>
  let w' := {| calls := S (calls w); log := log w ++ [EvRun (calls w)] |} in
  match device (calls w) commands with
  | Responded rs => (Ok rs, w')
  | Aborted msg => (Exit (fail_json msg None None), w')
  | Threw e => (Raise e, w')
  end.

Definition call (item : conditional) (responses : list value) : M bool :=
  fun w => lift (Conditional_call (raw item) responses) (record (EvCall item) w).

(** The warnings loop of [parse_commands]; the [ComplexList] transform
    has already turned each entry into a [Command]. *)
Fixpoint parse_commands_loop (check : bool) (commands : list Command)
         (warnings : list string) : list string :=
  match commands with
  | [] => warnings
  | item :: rest =>
      parse_commands_loop check rest
        (if check && negb (String.prefix "dis" (command item))
         then warnings ++
              ["Only display commands are supported when using check_mode, not executing "
                 ++ command item]%string
         else warnings)
  end.

Definition parse_commands (p : params) (warnings : list string)
  : list Command * list string :=
  (param_commands p,
   parse_commands_loop (check_mode p) (param_commands p) warnings).

(** [[Conditional(c) for c in wait_for]]; [n] objects exist already. *)
Fixpoint comprehension (n : nat) (wait_for : list string)
  : M (list conditional) :=
  match wait_for with
  | [] => ret []
  | c :: rest =>
      _ <- lift (Conditional_init c) ;;
      items <- comprehension (S n) rest ;;
      ret ({| ident := n; raw := c |} :: items)
  end.

(** The [try] around the comprehension: only [AttributeError] is caught. *)
Definition build_conditionals (wait_for : list string)
  : M (list conditional) := fun w =>
  match comprehension 0 wait_for w with
  | (Raise (AttributeError m), w') =>
      (Exit (fail_json (to_native (AttributeError m)) None
                       (Some (AttributeError m))), w')
  | r => r
  end.

(** [for item in list(conditionals): ...]: [items] is what is left of
    the snapshot, [conditionals] the list being mutated. *)
Fixpoint for_items (m : policy) (responses : list value)
         (items conditionals : list conditional) : M (list conditional) :=
  match items with
  | [] => ret conditionals
  | item :: rest =>
      b <- call item responses ;;
      if b : bool then
        match m with
        | match_any => ret []
        | match_all =>
            conditionals' <- list_remove item conditionals ;;
            for_items m responses rest conditionals'
        end
      else for_items m responses rest conditionals
  end.

(** One pass through the body of the [while] loop. *)
Definition iteration (p : params) (commands : list Command) (st : locals)
  : M flow :=
  responses <- run_commands commands ;;
  conditionals <- for_items (param_match p) responses
                    (conditionals st) (conditionals st) ;;
  if is_empty conditionals then
    ret (Break {| retries := retries st;
                  conditionals := conditionals;
                  responses := Some responses |})
  else
    sleep (param_interval p) ;;
    ret (Next {| retries := retries st - 1;
                 conditionals := conditionals;
                 responses := Some responses |}).

(** [while retries > 0: ...] *)
Fixpoint while_loop (fuel : nat) (p : params) (commands : list Command)
         (st : locals) : M locals :=
  if 0 <? retries st then
    match fuel with
    | O => out_of_fuel
    | S fuel' =>
        f <- iteration p commands st ;;
        match f with
        | Break st' => ret st'
        | Next st' => while_loop fuel' p commands st'
        end
    end
  else ret st.

Definition msg_failed : string :=
  "One or more conditional statements have not be satisfied".

(** What follows the loop. *)
Definition finish (warnings : list string) (st : locals) : M unit :=
  (if is_empty (conditionals st) then ret tt
   else exit (fail_json msg_failed (Some (map raw (conditionals st))) None)) ;;
  match responses st with
  | None => raise (UnboundLocalError "responses")
  | Some rs => exit (exit_json false warnings rs (to_lines rs))
  end.

Definition initial (p : params) (conditionals : list conditional) : locals :=
  {| retries := param_retries p;
     conditionals := conditionals;
     responses := None |}.

Definition main (p : params) : M unit :=
  let warnings := check_args p [] in
  let '(commands, warnings) := parse_commands p warnings in
  let wait_for := given_wait_for p in
  conditionals <- build_conditionals wait_for ;;
  st <- while_loop (Z.to_nat (param_retries p)) p commands
          (initial p conditionals) ;;
  finish warnings st.

(** [Conditional(c)] returns. *)
Definition accepted (c : string) : Prop := Conditional_init c = Returns tt.

(** [result['warnings']] *)
Definition warnings_of (p : params) : list string :=
  snd (parse_commands p (check_args p [])).

(** The outcome of [main] when [Conditional(c)] raises [e]. *)
Definition rejected {A : Type} (e : exn) : res A :=
  match e with
  | AttributeError _ => Exit (fail_json (to_native e) None (Some e))
  | _ => Raise e
  end.

(** ** Rounds

    [rounds p commands st w st' w']: from the loop head in state [st]
    and world [w], zero or more passes through the body, each ending
    at [retries -= 1], lead to the loop head in [st'] and [w']. *)
Inductive rounds (p : params) (commands : list Command)
  : locals -> world -> locals -> world -> Prop :=
| rounds_here st w : rounds p commands st w st w
| rounds_more st w st1 w1 st2 w2 :
    0 < retries st ->
    iteration p commands st w = (Ok (Next st1), w1) ->
    rounds p commands st1 w1 st2 w2 ->
    rounds p commands st w st2 w2.

(** [item(responses)] returned [True]. *)
Definition holds (responses : list value) (item : conditional) : Prop :=
  Conditional_call (raw item) responses = Returns true.

(** [item(responses)] returned [False]. *)
Definition fails (responses : list value) (item : conditional) : Prop :=
  Conditional_call (raw item) responses = Returns false.

(** The items that the [for] loop leaves in the list under [all]. *)
Definition stays (responses : list value) (item : conditional) : bool :=
  match Conditional_call (raw item) responses with
  | Returns true => false
  | _ => true
  end.

End Main.

(** ** A small instance of the collaborators

    Enough of the [Conditional] grammar to run the module's EXAMPLES:
    [result[N] contains WORD], with any other operator refused the way
    the library does ([AttributeError]). *)

Module Demo.

Definition words (s : string) : list string := split " "%char s.

Definition key_index (key : string) : option nat :=
  if (key =? "result")%string then Some 0%nat
  else if (key =? "result[0]")%string then Some 0%nat
  else if (key =? "result[1]")%string then Some 1%nat
  else if (key =? "result[5]")%string then Some 5%nat
  else None.

Definition contains (needle hay : string) : bool :=
  match String.index 0 needle hay with
  | Some _ => true
  | None => false
  end.

Definition init (c : string) : returned unit :=
  match words c with
  | [_; op; _] =>
      if (op =? "contains")%string then Returns tt
      else Raises (AttributeError ("unknown operator: " ++ op))
  | _ => Raises (OtherError "failed to parse conditional")
  end.

Definition eval (c : string) (responses : list value) : returned bool :=
  match words c with
  | [key; _; val] =>
      match key_index key with
      | Some i =>
          match nth_error responses i with
          | Some (VStr s) => Returns (contains val s)
          | _ => Raises (OtherError "index out of range")
          end
      | None => Raises (OtherError "unknown key")
      end
  | _ => Raises (OtherError "failed to parse conditional")
  end.

(** A device that answers every round with the same responses. *)
Definition steady (rs : list value) : nat -> list Command -> reply :=
  fun _ _ => Responded rs.

Definition no_check (_ : params) (warnings : list string) : list string :=
  warnings.

Definition run (rs : list value) (p : params) : M unit :=
  main init eval (steady rs) no_check p.

Definition display (c : string) : Command :=
  {| command := c; prompt := None; answer := None |}.

Definition boot : world := {| calls := 0; log := [] |}.

Definition huawei : string := "result[0] contains HUAWEI".
Definition board : string := "result[1] contains Board".

(** The second task of EXAMPLES, with a retry budget [n]. *)
Definition version_task (n : Z) : params :=
  {| param_commands := [display "display version"];
     param_wait_for := Some [huawei];
     param_match := match_all;
     param_retries := n;
     param_interval := 1;
     check_mode := false |}.

(** The first task of EXAMPLES: no [wait_for]. *)
Definition plain_task (n : Z) : params :=
  {| param_commands := [display "display version"];
     param_wait_for := None;
     param_match := match_all;
     param_retries := n;
     param_interval := 1;
     check_mode := false |}.

Definition two_task (m : policy) : params :=
  {| param_commands := [display "display version"; display "display device"];
     param_wait_for := Some [huawei; board];
     param_match := m;
     param_retries := 10;
     param_interval := 1;
     check_mode := false |}.

(** A task whose condition uses an operator the library does not know. *)
Definition bad_task : params :=
  {| param_commands := [display "display version"];
     param_wait_for := Some [huawei; "result[0] resembles HUAWEI"];
     param_match := match_all;
     param_retries := 10;
     param_interval := 1;
     check_mode := false |}.

Definition vrp : list value := [VStr "HUAWEI VRP Software"].
Definition ios : list value := [VStr "Cisco IOS"].
Definition vrp_no_board : list value :=
  [VStr "HUAWEI VRP Software"; VStr "no board info"].
Definition ios_board : list value :=
  [VStr "Cisco IOS"; VStr "Board 1 ok"].

(** The two objects built for [two_task]. *)
Definition c_huawei : conditional := {| ident := 0; raw := huawei |}.
Definition c_board : conditional := {| ident := 1; raw := board |}.

(** The loop head of [two_task m] before the first round and, under
    [all] against [vrp_no_board], after one and two rounds. *)
Definition two_start (m : policy) : locals :=
  initial (two_task m) [c_huawei; c_board].

Definition two_later (n : Z) : locals :=
  {| retries := n; conditionals := [c_board];
     responses := Some vrp_no_board |}.

Definition two_round (st : locals) (w : world) : res flow * world :=
  iteration eval (steady vrp_no_board) (two_task match_all)
            (param_commands (two_task match_all)) st w.

(** The loop of [version_task 3] against [ios], and where it ends. *)
Definition version_loop : res locals * world :=
  while_loop eval (steady ios) 3 (version_task 3)
             (param_commands (version_task 3))
             (initial (version_task 3) (objects 0 [huawei])) boot.

Definition version_end : locals :=
  {| retries := 0; conditionals := objects 0 [huawei];
     responses := Some ios |}.

End Demo.

(** ** The other functions of the module, and words for their properties *)

(** [to_cli(obj)]: [obj['command']]. *)
Definition to_cli (obj : Command) : string := command obj.

(** [s.count(sep)] for a one-character [sep]. *)
Fixpoint count_sep (sep : ascii) (s : string) : nat :=
  match s with
  | EmptyString => 0%nat
  | String c rest =>
      if Ascii.eqb c sep then S (count_sep sep rest) else count_sep sep rest
  end.

(** [item['command'].startswith('dis')] *)
Definition is_display (item : Command) : bool :=
  String.prefix "dis" (command item).

(** The warning of [parse_commands] for one command. *)
Definition check_warning (item : Command) : string :=
  ("Only display commands are supported when using check_mode, not executing "
     ++ command item)%string.

(** The same parameters with [check_mode] set to [b]. *)
Definition with_check_mode (b : bool) (p : params) : params :=
  {| param_commands := param_commands p;
     param_wait_for := param_wait_for p;
     param_match := param_match p;
     param_retries := param_retries p;
     param_interval := param_interval p;
     check_mode := b |}.

(** An outcome with the [warnings] of its result left out. *)
Definition without_warnings {A} (r : res A) : res A :=
  match r with
  | Exit (exit_json changed _ stdout stdout_lines) =>
      Exit (exit_json changed [] stdout stdout_lines)
  | _ => r
  end.

(** The events of the round that ends the loop by [break]: the [k]-th
    execution and the calls made. *)
Definition last_round (called : list conditional) (k : nat) : list event :=
  EvRun k :: map EvCall called.



(** ** Devices and tasks for further runs *)

Module Trial.







End Trial.

(** The shape of what a run adds to the log: rounds with consecutive
    executions from the [k]-th on, each an execution followed by calls of
    conditions of [pool], with a sleep of [secs] seconds after every
    round but possibly the last. *)
Inductive course (pool : list conditional) (secs : Z)
  : nat -> list event -> Prop :=
| course_done k : course pool secs k []
| course_last k called :
    incl called pool ->
    course pool secs k (EvRun k :: map EvCall called)
| course_round k called rest :
    incl called pool ->
    course pool secs (S k) rest ->
    course pool secs k (EvRun k :: map EvCall called ++ EvSleep secs :: rest).

(** * Properties *)

(** ** [split] and [to_lines] *)

Lemma split_not_nil (sep : ascii) (s : string) : split sep s <> [].
Proof.
  induction s as [|c s IH]; simpl; [discriminate|].
  destruct (Ascii.eqb c sep); [discriminate|].
  destruct (split sep s); [contradiction | discriminate].
Qed.

(** Joining the pieces with the separator gives the string back. *)
Lemma concat_split (sep : ascii) (s : string) :
  String.concat (String sep EmptyString) (split sep s) = s.
Proof.
  induction s as [|c s IH]; simpl; [reflexivity|].
  destruct (Ascii.eqb_spec c sep) as [->|Hne].
  - pose proof (split_not_nil sep s) as Hnil.
    simpl. destruct (split sep s) as [|piece pieces]; [contradiction|].
    simpl in *. now rewrite IH.
  - pose proof (split_not_nil sep s) as Hnil.
    destruct (split sep s) as [|piece pieces]; [contradiction|].
    simpl in *. destruct pieces; simpl in *; now rewrite <- IH.
Qed.

(** No piece contains the separator. *)
Lemma split_pieces_clean (sep : ascii) (s piece : string) :
  In piece (split sep s) -> occurs sep piece = false.
Proof.
  revert piece. induction s as [|c s IH]; simpl; intros piece Hin.
  - destruct Hin as [<-|[]]. reflexivity.
  - destruct (Ascii.eqb c sep) eqn:Hc.
    + destruct Hin as [<-|Hin]; [reflexivity | now apply IH].
    + pose proof (split_not_nil sep s) as Hnil.
      destruct (split sep s) as [|q qs]; [contradiction|].
      destruct Hin as [<-|Hin].
      * simpl. rewrite Hc. apply IH. now left.
      * apply IH. now right.
Qed.

Lemma to_lines_loop_map (stdout lines : list value) :
  to_lines_loop stdout lines = lines ++ map split_item stdout.
Proof.
  revert lines. induction stdout as [|item rest IH]; intros lines; simpl.
  - now rewrite app_nil_r.
  - rewrite IH, <- app_assoc. reflexivity.
Qed.

Lemma to_lines_map (stdout : list value) :
  to_lines stdout = map split_item stdout.
Proof. unfold to_lines. now rewrite to_lines_loop_map. Qed.

(** ** The monad and the world *)

Lemma extend_nil (w : world) : extend [] w = w.
Proof. destruct w; unfold extend; simpl. now rewrite app_nil_r. Qed.

Lemma extend_extend (a b : list event) (w : world) :
  extend b (extend a w) = extend (a ++ b) w.
Proof. unfold extend; simpl. now rewrite app_assoc. Qed.

Lemma ran_extend (evs : list event) (w : world) :
  extend evs (ran w) =
  {| calls := S (calls w); log := log w ++ EvRun (calls w) :: evs |}.
Proof. unfold extend, ran; simpl. now rewrite <- app_assoc. Qed.

Lemma executions_app (a b : list event) :
  executions (a ++ b) = (executions a + executions b)%nat.
Proof. unfold executions. now rewrite filter_app, length_app. Qed.

Lemma sleeps_app (a b : list event) :
  sleeps (a ++ b) = (sleeps a + sleeps b)%nat.
Proof. unfold sleeps. now rewrite filter_app, length_app. Qed.

Lemma executions_calls (items : list conditional) :
  executions (map EvCall items) = 0%nat.
Proof. induction items; simpl; auto. Qed.

Lemma sleeps_calls (items : list conditional) :
  sleeps (map EvCall items) = 0%nat.
Proof. induction items; simpl; auto. Qed.





(** ** [list.remove] on objects with distinct identities *)

Lemma remove_first_app (x : conditional) (kept rest : list conditional) :
  ~ In (ident x) (map ident kept) ->
  remove_first x (kept ++ x :: rest) = Some (kept ++ rest).
Proof.
  induction kept as [|y kept IH]; simpl; intros Hnotin.
  - unfold same_object. now rewrite Nat.eqb_refl.
  - unfold same_object.
    destruct (Nat.eqb_spec (ident y) (ident x)) as [Heq|Hne].
    + exfalso. apply Hnotin. now left.
    + fold (same_object y x). rewrite IH; [reflexivity|].
      intros Hin. apply Hnotin. now right.
Qed.

Lemma NoDup_ident_middle (kept rest : list conditional) (x : conditional) :
  NoDup (map ident (kept ++ x :: rest)) ->
  ~ In (ident x) (map ident kept) /\ NoDup (map ident (kept ++ rest)).
Proof.
  rewrite !map_app. simpl. intros H. split.
  - apply NoDup_remove_2 in H. intros Hin. apply H.
    apply in_or_app. now left.
  - now apply NoDup_remove_1 in H.
Qed.

Lemma NoDup_ident_filter (f : conditional -> bool) (l : list conditional) :
  NoDup (map ident l) -> NoDup (map ident (filter f l)).
Proof.
  induction l as [|x l IH]; simpl; intros H; [constructor|].
  inversion H as [|? ? Hnotin Hnd]; subst.
  destruct (f x); simpl; [constructor|]; auto.
  intros Hin. apply Hnotin.
  apply in_map_iff in Hin as [y [Hy Hin]].
  apply filter_In in Hin as [Hin _].
  apply in_map_iff. now exists y.
Qed.

(** ** [time.sleep] *)

Lemma sleep_error_none (secs : Z) :
  0 <= secs <= max_sleep -> sleep_error secs = None.
Proof.
  intros [Hlo Hhi]. unfold sleep_error.
  destruct (Z.ltb_spec secs 0); [lia|].
  destruct (Z.ltb_spec max_sleep secs); [lia|reflexivity].
Qed.

Lemma sleep_error_inv (secs : Z) :
  sleep_error secs = None -> 0 <= secs <= max_sleep.
Proof.
  unfold sleep_error.
  destruct (Z.ltb_spec secs 0); [discriminate|].
  destruct (Z.ltb_spec max_sleep secs); [discriminate|]. lia.
Qed.

(** ** The rounds of the loop *)

Section Rounds.

Variable Conditional_call : string -> list value -> returned bool.
Variable device : nat -> list Command -> reply.

Local Notation for_items := (for_items Conditional_call).
Local Notation iteration := (iteration Conditional_call device).
Local Notation while_loop := (while_loop Conditional_call device).
Local Notation rounds := (rounds Conditional_call device).
Local Notation Holds := (holds Conditional_call).
Local Notation Fails := (fails Conditional_call).
Local Notation Stays := (stays Conditional_call).

Lemma call_eq (item : conditional) (rs : list value) (w : world) :
  call Conditional_call item rs w =
  match Conditional_call (raw item) rs with
  | Returns b => (Ok b, extend [EvCall item] w)
  | Raises e => (Raise e, extend [EvCall item] w)
  end.
Proof.
  unfold call. destruct (Conditional_call (raw item) rs); reflexivity.
Qed.

Lemma for_items_cons m rs item rest cs w :
  for_items m rs (item :: rest) cs w =
  match Conditional_call (raw item) rs with
  | Returns true =>
      match m with
      | match_any => (Ok [], extend [EvCall item] w)
      | match_all =>
          match remove_first item cs with
          | Some cs' => for_items m rs rest cs' (extend [EvCall item] w)
          | None => (Raise (ValueError "list.remove(x): x not in list"),
                     extend [EvCall item] w)
          end
      end
  | Returns false => for_items m rs rest cs (extend [EvCall item] w)
  | Raises e => (Raise e, extend [EvCall item] w)
  end.
Proof.
  simpl. unfold bind at 1. rewrite call_eq.
  destruct (Conditional_call (raw item) rs) as [[|]|e]; try reflexivity.
  destruct m; [reflexivity|].
  unfold bind, list_remove.
  destruct (remove_first item cs); reflexivity.
Qed.


(** Under [any], the first item that evaluates to true empties the list
    and ends the loop: the items after it are not called. *)
Lemma for_items_any_hit rs pre item post cs w :
  Forall (Fails rs) pre ->
  Holds rs item ->
  for_items match_any rs (pre ++ item :: post) cs w =
  (Ok [], extend (map EvCall (pre ++ [item])) w).
Proof.
  revert w. induction pre as [|x pre IH]; intros w Hpre Hitem.
  - simpl app. rewrite for_items_cons.
    unfold holds in Hitem. now rewrite Hitem.
  - inversion Hpre as [|? ? Hx Hrest]; subst.
    simpl app. rewrite for_items_cons.
    unfold fails in Hx. rewrite Hx.
    rewrite IH by assumption. now rewrite extend_extend.
Qed.

(** Under [all], a pass that ends normally has called every item of the
    snapshot and kept exactly those that did not evaluate to true. *)
Lemma for_items_all_inv rs items :
  forall kept w cs w',
    NoDup (map ident (kept ++ items)) ->
    for_items match_all rs items (kept ++ items) w = (Ok cs, w') ->
    cs = kept ++ filter (Stays rs) items /\
    w' = extend (map EvCall items) w /\
    Forall (fun item => Holds rs item \/ Fails rs item) items.
Proof.
  induction items as [|item rest IH]; intros kept w cs w' Hnd Hrun.
  - simpl in Hrun. unfold ret in Hrun. inversion Hrun; subst.
    rewrite extend_nil. auto.
  - rewrite for_items_cons in Hrun.
    destruct (Conditional_call (raw item) rs) as [[|]|e] eqn:Hcall;
      [| |discriminate].
    + destruct (NoDup_ident_middle _ _ _ Hnd) as [Hnotin Hnd'].
      rewrite remove_first_app in Hrun by assumption.
      destruct (IH _ _ _ _ Hnd' Hrun) as [Hcs [Hw Hall]].
      simpl. unfold stays at 1. rewrite Hcall.
      rewrite Hw, extend_extend. repeat split; auto.
    + assert (Heq : kept ++ item :: rest = (kept ++ [item]) ++ rest)
        by now rewrite <- app_assoc.
      rewrite Heq in Hrun, Hnd.
      destruct (IH _ _ _ _ Hnd Hrun) as [Hcs [Hw Hall]].
      simpl. unfold stays at 1. rewrite Hcall.
      rewrite Hw, extend_extend, Hcs, <- app_assoc. repeat split; auto.
Qed.

(** And it does end normally when every call returns. *)
Lemma for_items_all_run rs items :
  forall kept w,
    NoDup (map ident (kept ++ items)) ->
    Forall (fun item => Holds rs item \/ Fails rs item) items ->
    for_items match_all rs items (kept ++ items) w =
    (Ok (kept ++ filter (Stays rs) items), extend (map EvCall items) w).
Proof.
  induction items as [|item rest IH]; intros kept w Hnd Hall.
  - simpl. unfold ret. now rewrite extend_nil.
  - inversion Hall as [|? ? Hitem Hrest]; subst.
    rewrite for_items_cons. simpl. unfold stays at 1.
    destruct Hitem as [Hitem|Hitem]; red in Hitem; rewrite Hitem.
    + destruct (NoDup_ident_middle _ _ _ Hnd) as [Hnotin Hnd'].
      rewrite remove_first_app by assumption.
      rewrite IH by assumption. now rewrite extend_extend.
    + assert (Heq : kept ++ item :: rest = (kept ++ [item]) ++ rest)
        by now rewrite <- app_assoc.
      rewrite Heq in Hnd |- *.
      rewrite IH by assumption.
      now rewrite extend_extend, <- app_assoc.
Qed.


(** One pass through the body, by cases. *)
Lemma iteration_eq p commands st w :
  iteration p commands st w =
  match device (calls w) commands with
  | Responded rs =>
      match for_items (param_match p) rs (conditionals st) (conditionals st)
                      (ran w) with
      | (Ok cs, w1) =>
          if is_empty cs then
            (Ok (Break {| retries := retries st; conditionals := cs;
                          responses := Some rs |}), w1)
          else
            match sleep_error (param_interval p) with
            | Some e => (Raise e, w1)
            | None =>
                (Ok (Next {| retries := retries st - 1; conditionals := cs;
                             responses := Some rs |}),
                 extend [EvSleep (param_interval p)] w1)
            end
      | (Raise e, w1) => (Raise e, w1)
      | (Exit j, w1) => (Exit j, w1)
      | (OutOfFuel, w1) => (OutOfFuel, w1)
      end
  | Aborted msg => (Exit (fail_json msg None None), ran w)
  | Threw e => (Raise e, ran w)
  end.
Proof.
  unfold iteration, bind at 1, run_commands. fold (ran w).
  destruct (device (calls w) commands) as [rs|j|e]; try reflexivity.
  unfold bind at 1.
  destruct (for_items _ rs _ _ (ran w)) as [[cs|e|j|] w1]; try reflexivity.
  destruct (is_empty cs); [reflexivity|].
  unfold bind, sleep. destruct (sleep_error (param_interval p)); reflexivity.
Qed.

Lemma while_loop_eq fuel p commands st w :
  while_loop (S fuel) p commands st w =
  if 0 <? retries st then
    match iteration p commands st w with
    | (Ok (Break st'), w') => (Ok st', w')
    | (Ok (Next st'), w') => while_loop fuel p commands st' w'
    | (Raise e, w') => (Raise e, w')
    | (Exit j, w') => (Exit j, w')
    | (OutOfFuel, w') => (OutOfFuel, w')
    end
  else (Ok st, w).
Proof.
  simpl. destruct (0 <? retries st); [|reflexivity].
  unfold bind. destruct (iteration p commands st w) as [[[st'|st']|e|j|] w'];
    reflexivity.
Qed.

Lemma while_loop_done fuel p commands st w :
  retries st <= 0 -> while_loop fuel p commands st w = (Ok st, w).
Proof.
  intros H. destruct fuel; simpl;
    destruct (Z.ltb_spec 0 (retries st)); try lia; reflexivity.
Qed.

(** What a completed pass tells about the states around it. *)
Lemma iteration_inv p commands st w f w' :
  iteration p commands st w = (Ok f, w') ->
  exists rs cs w1,
    device (calls w) commands = Responded rs /\
    for_items (param_match p) rs (conditionals st) (conditionals st) (ran w)
      = (Ok cs, w1) /\
    ((cs = [] /\ w' = w1 /\
      f = Break {| retries := retries st; conditionals := [];
                   responses := Some rs |}) \/
     (cs <> [] /\ 0 <= param_interval p <= max_sleep /\
      w' = extend [EvSleep (param_interval p)] w1 /\
      f = Next {| retries := retries st - 1; conditionals := cs;
                  responses := Some rs |})).
Proof.
  rewrite iteration_eq. intros H.
  destruct (device (calls w) commands) as [rs|j|e]; try discriminate.
  destruct (for_items _ rs _ _ (ran w)) as [[cs|e|j|] w1] eqn:Hfor;
    try discriminate.
  exists rs, cs, w1. split; [reflexivity|]. split; [exact Hfor|].
  destruct cs as [|c cs]; simpl in H.
  - left. inversion H; subst. auto.
  - right. destruct (sleep_error (param_interval p)) eqn:Hs; [discriminate|].
    apply sleep_error_inv in Hs.
    inversion H; subst. split; [discriminate|]. split; [assumption|].
    split; reflexivity.
Qed.

Lemma for_items_fuel m rs items :
  forall cs w, fst (for_items m rs items cs w) <> OutOfFuel.
Proof.
  induction items as [|item rest IH]; intros cs w.
  - simpl. discriminate.
  - rewrite for_items_cons.
    destruct (Conditional_call (raw item) rs) as [[|]|e]; simpl;
      try discriminate; [|apply IH].
    destruct m; simpl; [discriminate|].
    destruct (remove_first item cs) as [cs'|]; simpl; [apply IH|discriminate].
Qed.

(** The retry counter bounds the number of passes: fuel beyond it is
    never used, and the loop never runs out of it. *)
Lemma while_loop_fuel fuel p commands :
  forall st w,
    (Z.to_nat (retries st) <= fuel)%nat ->
    while_loop fuel p commands st w =
    while_loop (Z.to_nat (retries st)) p commands st w /\
    fst (while_loop fuel p commands st w) <> OutOfFuel.
Proof.
  induction fuel as [|fuel IH]; intros st w Hle.
  - assert (Hz : Z.to_nat (retries st) = 0%nat) by lia.
    rewrite Hz. split; [reflexivity|].
    rewrite while_loop_done by lia. discriminate.
  - destruct (Z.ltb_spec 0 (retries st)) as [Hpos|Hnpos].
    + destruct (Z.to_nat (retries st)) as [|n] eqn:Hn; [lia|].
      rewrite !while_loop_eq.
      destruct (Z.ltb_spec 0 (retries st)); [|lia].
      destruct (iteration p commands st w) as [[[st'|st']|e|j|] w'] eqn:Hit;
        try (split; [reflexivity|discriminate]).
      * apply iteration_inv in Hit
          as [rs [cs [w1 [_ [_ [[_ [_ Hf]]|[_ [_ [Hw Hf]]]]]]]]];
          inversion Hf; subst st' w'.
        assert (Hst : Z.to_nat (retries st - 1) = n) by lia.
        simpl retries in *.
        destruct (IH {| retries := retries st - 1; conditionals := cs;
                        responses := Some rs |}
                     (extend [EvSleep (param_interval p)] w1)) as [H1 H2];
          [simpl; lia|].
        simpl retries in H1. rewrite Hst in H1. split; assumption.
      * exfalso. rewrite iteration_eq in Hit.
        destruct (device (calls w) commands) as [rs|j|e]; try discriminate.
        pose proof (for_items_fuel (param_match p) rs (conditionals st)
                      (conditionals st) (ran w)) as Hff.
        destruct (for_items _ rs _ _ (ran w)) as [[cs|e|j|] w1];
          try discriminate; [|now apply Hff].
        destruct (is_empty cs); [discriminate|].
        destruct (sleep_error (param_interval p)); discriminate.
    + rewrite !while_loop_done by lia. split; [reflexivity|discriminate].
Qed.

(** How the loop ends when it ends normally: by its guard after
    zero or more full rounds, or by [break] in a last round. *)
Lemma while_loop_inv fuel p commands :
  forall st w st' w',
    while_loop fuel p commands st w = (Ok st', w') ->
    (rounds p commands st w st' w' /\ retries st' <= 0) \/
    (exists stk wk,
        rounds p commands st w stk wk /\ 0 < retries stk /\
        iteration p commands stk wk = (Ok (Break st'), w')).
Proof.
  induction fuel as [|fuel IH]; intros st w st' w' Hrun.
  - simpl in Hrun. destruct (Z.ltb_spec 0 (retries st)); [discriminate|].
    inversion Hrun; subst. left. split; [constructor|assumption].
  - rewrite while_loop_eq in Hrun.
    destruct (Z.ltb_spec 0 (retries st)) as [Hpos|Hnpos].
    + destruct (iteration p commands st w) as [[[st1|st1]|e|j|] w1] eqn:Hit;
        try discriminate.
      * destruct (IH _ _ _ _ Hrun) as [[Hr Hle]|[stk [wk [Hr [Hk Hb]]]]].
        -- left. split; [|assumption]. econstructor; eauto.
        -- right. exists stk, wk. split; [|auto]. econstructor; eauto.
      * inversion Hrun; subst. right. exists st, w.
        split; [constructor|auto].
    + inversion Hrun; subst. left. split; [constructor|assumption].
Qed.

Lemma for_items_no_exit m rs items :
  forall cs w j, fst (for_items m rs items cs w) <> Exit j.
Proof.
  induction items as [|item rest IH]; intros cs w j.
  - simpl. discriminate.
  - rewrite for_items_cons.
    destruct (Conditional_call (raw item) rs) as [[|]|e]; simpl;
      try discriminate; [|apply IH].
    destruct m; simpl; [discriminate|].
    destruct (remove_first item cs) as [cs'|]; simpl; [apply IH|discriminate].
Qed.

(** Inside the loop only [run_commands] can end the process. *)
Lemma while_loop_exit fuel p commands :
  forall st w j w',
    while_loop fuel p commands st w = (Exit j, w') ->
    exists msg, j = fail_json msg None None.
Proof.
  induction fuel as [|fuel IH]; intros st w j w' H.
  - simpl in H. destruct (0 <? retries st); discriminate.
  - rewrite while_loop_eq in H.
    destruct (0 <? retries st); [|discriminate].
    rewrite iteration_eq in H.
    destruct (device (calls w) commands) as [rs|msg|e]; try discriminate.
    + pose proof (for_items_no_exit (param_match p) rs (conditionals st)
                    (conditionals st) (ran w)) as Hne.
      destruct (for_items _ rs _ _ (ran w)) as [[cs|e|j0|] w1];
        try discriminate.
      * destruct (is_empty cs); [discriminate|].
        destruct (sleep_error (param_interval p)); [discriminate|eauto].
      * exfalso. now apply (Hne j0).
    + inversion H; subst. eauto.
Qed.

(** After at least one full round some condition is outstanding. *)
Lemma rounds_last p commands st w st' w' :
  rounds p commands st w st' w' ->
  (st' = st /\ w' = w) \/ conditionals st' <> [].
Proof.
  induction 1 as [st w|st w st1 w1 st2 w2 Hpos Hit Hrest IH]; [auto|].
  right. destruct IH as [[-> ->]|Hne]; [|assumption].
  apply iteration_inv in Hit
    as [rs [cs [w0 [_ [_ [[_ [_ Hf]]|[Hne [_ [_ Hf]]]]]]]]];
    inversion Hf; subst. assumption.
Qed.

End Rounds.

(** ** Building the conditionals *)

Section Building.

Variable Conditional_init : string -> returned unit.

Local Notation comprehension := (comprehension Conditional_init).
Local Notation build_conditionals := (build_conditionals Conditional_init).

Local Notation accepted := (accepted Conditional_init).

Lemma comprehension_cons n c rest w :
  comprehension n (c :: rest) w =
  match Conditional_init c with
  | Returns _ =>
      match comprehension (S n) rest w with
      | (Ok items, w') => (Ok ({| ident := n; raw := c |} :: items), w')
      | (Raise e, w') => (Raise e, w')
      | (Exit j, w') => (Exit j, w')
      | (OutOfFuel, w') => (OutOfFuel, w')
      end
  | Raises e => (Raise e, w)
  end.
Proof.
  simpl. unfold bind at 1, lift.
  destruct (Conditional_init c) as [[]|e]; [|reflexivity].
  unfold ret at 1, bind.
  destruct (comprehension (S n) rest w) as [[items|e|j|] w']; reflexivity.
Qed.

Lemma comprehension_accepted wait_for :
  forall n w,
    Forall accepted wait_for ->
    comprehension n wait_for w = (Ok (objects n wait_for), w).
Proof.
  induction wait_for as [|c rest IH]; intros n w Hall; [reflexivity|].
  inversion Hall as [|? ? Hc Hrest]; subst.
  rewrite comprehension_cons. red in Hc. rewrite Hc.
  now rewrite IH.
Qed.

Lemma comprehension_rejected pre c post e :
  forall n w,
    Forall accepted pre ->
    Conditional_init c = Raises e ->
    comprehension n (pre ++ c :: post) w = (Raise e, w).
Proof.
  induction pre as [|x pre IH]; intros n w Hpre Hc; simpl app;
    rewrite comprehension_cons.
  - now rewrite Hc.
  - inversion Hpre as [|? ? Hx Hrest]; subst. red in Hx. rewrite Hx.
    now rewrite IH.
Qed.

(** A list of raw strings is accepted as a whole, or has a first
    string at which the constructor raises. *)
Lemma first_rejected wait_for :
  Forall accepted wait_for \/
  exists pre c post e,
    wait_for = pre ++ c :: post /\ Forall accepted pre /\
    Conditional_init c = Raises e.
Proof.
  induction wait_for as [|c rest IH]; [left; constructor|].
  destruct (Conditional_init c) as [[]|e] eqn:Hc.
  - destruct IH as [Hall|[pre [x [post [e [Heq [Hpre Hx]]]]]]].
    + left. constructor; assumption.
    + right. exists (c :: pre), x, post, e. subst rest.
      split; [reflexivity|]. split; [constructor; assumption|assumption].
  - right. exists [], c, rest, e.
    split; [reflexivity|]. split; [constructor|assumption].
Qed.

Lemma build_accepted wait_for w :
  Forall accepted wait_for ->
  build_conditionals wait_for w = (Ok (objects 0 wait_for), w).
Proof.
  intros Hall. unfold build_conditionals.
  now rewrite comprehension_accepted.
Qed.

Lemma build_rejected pre c post e w :
  Forall accepted pre ->
  Conditional_init c = Raises e ->
  build_conditionals (pre ++ c :: post) w = (rejected e, w).
Proof.
  intros Hpre Hc. unfold build_conditionals.
  rewrite (comprehension_rejected _ _ _ _ _ _ Hpre Hc).
  destruct e; reflexivity.
Qed.

(** When the list is built, it is the list of fresh objects. *)
Lemma build_inv wait_for w cs w' :
  build_conditionals wait_for w = (Ok cs, w') ->
  Forall accepted wait_for /\ cs = objects 0 wait_for /\ w' = w.
Proof.
  intros H. destruct (first_rejected wait_for)
    as [Hall|[pre [c [post [e [Heq [Hpre Hc]]]]]]].
  - rewrite build_accepted in H by assumption. inversion H; auto.
  - subst wait_for. rewrite (build_rejected _ _ _ _ _ Hpre Hc) in H.
    destruct e; discriminate.
Qed.

End Building.

Lemma objects_raw wait_for : forall n, map raw (objects n wait_for) = wait_for.
Proof.
  induction wait_for as [|c rest IH]; intros n; simpl; [reflexivity|].
  now rewrite IH.
Qed.

Lemma objects_ident wait_for :
  forall n, map ident (objects n wait_for) = seq n (List.length wait_for).
Proof.
  induction wait_for as [|c rest IH]; intros n; simpl; [reflexivity|].
  now rewrite IH.
Qed.

Lemma objects_NoDup n wait_for : NoDup (map ident (objects n wait_for)).
Proof. rewrite objects_ident. apply seq_NoDup. Qed.


(** ** What follows the loop *)

Lemma finish_failed warnings st w :
  conditionals st <> [] ->
  finish warnings st w =
  (Exit (fail_json msg_failed (Some (map raw (conditionals st))) None), w).
Proof.
  intros H. unfold finish, bind.
  destruct (conditionals st); [contradiction|reflexivity].
Qed.

Lemma finish_ok warnings st rs w :
  conditionals st = [] -> responses st = Some rs ->
  finish warnings st w = (Exit (exit_json false warnings rs (to_lines rs)), w).
Proof.
  intros Hc Hr. unfold finish, bind. rewrite Hc, Hr. reflexivity.
Qed.

Lemma finish_unbound warnings st w :
  conditionals st = [] -> responses st = None ->
  finish warnings st w = (Raise (UnboundLocalError "responses"), w).
Proof.
  intros Hc Hr. unfold finish, bind. rewrite Hc, Hr. reflexivity.
Qed.

(** ** The module as a whole *)

Section Claims.

Variable Conditional_init : string -> returned unit.
Variable Conditional_call : string -> list value -> returned bool.
Variable device : nat -> list Command -> reply.
Variable check_args : params -> list string -> list string.

Local Notation accepted := (accepted Conditional_init).
Local Notation build_conditionals := (build_conditionals Conditional_init).
Local Notation for_items := (for_items Conditional_call).
Local Notation iteration := (iteration Conditional_call device).
Local Notation while_loop := (while_loop Conditional_call device).
Local Notation rounds := (rounds Conditional_call device).
Local Notation Holds := (holds Conditional_call).
Local Notation Fails := (fails Conditional_call).
Local Notation Stays := (stays Conditional_call).
Local Notation warnings_of := (warnings_of check_args).
Local Notation main :=
  (main Conditional_init Conditional_call device check_args).

Lemma main_eq p w :
  main p w =
  match build_conditionals (given_wait_for p) w with
  | (Ok cs, w0) =>
      match while_loop (Z.to_nat (param_retries p)) p (param_commands p)
                       (initial p cs) w0 with
      | (Ok st, w1) => finish (warnings_of p) st w1
      | (Raise e, w1) => (Raise e, w1)
      | (Exit j, w1) => (Exit j, w1)
      | (OutOfFuel, w1) => (OutOfFuel, w1)
      end
  | (Raise e, w0) => (Raise e, w0)
  | (Exit j, w0) => (Exit j, w0)
  | (OutOfFuel, w0) => (OutOfFuel, w0)
  end.
Proof.
  unfold main, warnings_of, parse_commands, bind. simpl.
  destruct (build_conditionals (given_wait_for p) w) as [[cs|e|j|] w0];
    try reflexivity.
Qed.

(** [main] always ends the process: it never returns to its caller, and
    the model never runs out of fuel. *)
Lemma main_ends p w :
  exists w', (exists e, main p w = (Raise e, w')) \/
             (exists j, main p w = (Exit j, w')).
Proof.
  rewrite main_eq.
  destruct (first_rejected Conditional_init (given_wait_for p))
    as [Hall|[pre [c [post [e [Heq [Hpre Hc]]]]]]].
  - rewrite build_accepted by assumption.
    pose proof (while_loop_fuel Conditional_call device
                  (Z.to_nat (param_retries p)) p (param_commands p)
                  (initial p (objects 0 (given_wait_for p))) w
                  (Nat.le_refl _)) as [_ Hfuel].
    destruct (while_loop _ p _ _ w) as [[st|e|j|] w1]; simpl in Hfuel.
    + exists w1. unfold finish, bind.
      destruct (conditionals st); simpl.
      * destruct (responses st); [right|left]; eexists; reflexivity.
      * right. eexists; reflexivity.
    + exists w1. left. eexists; reflexivity.
    + exists w1. right. eexists; reflexivity.
    + contradiction.
  - rewrite Heq, (build_rejected _ _ _ _ _ _ Hpre Hc).
    exists w. destruct e; [right|left|left|left|left]; eexists; reflexivity.
Qed.

(** C2: with [retries <= 0] the loop body never runs, so nothing is
    executed (the world is left as it was, whatever [wait_for] is); and
    when moreover the condition list is empty, no failure is reported
    and the read of [responses], which was never assigned, ends the run
    with an unhandled [UnboundLocalError] instead of a result. *)
Theorem no_retries_no_execution p w :
  param_retries p <= 0 ->
  snd (main p w) = w /\
  (given_wait_for p = [] ->
   main p w = (Raise (UnboundLocalError "responses"), w)).
Proof.
  intros Hle. rewrite main_eq. split.
  - destruct (first_rejected Conditional_init (given_wait_for p))
      as [Hall|[pre [c [post [e [Heq [Hpre Hc]]]]]]].
    + rewrite build_accepted by assumption.
      rewrite while_loop_done by (simpl; lia).
      unfold finish, bind. simpl.
      destruct (objects 0 (given_wait_for p)); reflexivity.
    + rewrite Heq, (build_rejected _ _ _ _ _ _ Hpre Hc).
      destruct e; reflexivity.
  - intros Hnil. rewrite Hnil. unfold build_conditionals. simpl.
    unfold ret. rewrite while_loop_done by (simpl; lia).
    now apply finish_unbound.
Qed.

(** C3, amended: with an empty condition list and [retries >= 1], the
    run succeeds after exactly one execution of the batch, one round and
    no sleep, whatever [interval] is and however large [retries] is. *)
Theorem empty_wait_for_one_round p w rs :
  0 < param_retries p ->
  given_wait_for p = [] ->
  device (calls w) (param_commands p) = Responded rs ->
  main p w = (Exit (exit_json false (warnings_of p) rs (to_lines rs)), ran w) /\
  executions (log (ran w)) = S (executions (log w)) /\
  sleeps (log (ran w)) = sleeps (log w).
Proof.
  intros Hpos Hnil Hdev. split.
  - rewrite main_eq, Hnil. unfold build_conditionals. simpl. unfold ret.
    destruct (Z.to_nat (param_retries p)) as [|n] eqn:Hn; [lia|].
    rewrite while_loop_eq. simpl retries.
    destruct (Z.ltb_spec 0 (param_retries p)); [|lia].
    rewrite iteration_eq, Hdev. simpl.
    now apply finish_ok.
  - unfold ran. simpl log. rewrite executions_app, sleeps_app.
    change (executions [EvRun (calls w)]) with 1%nat.
    change (sleeps [EvRun (calls w)]) with 0%nat. lia.
Qed.

(** C6: when the loop is left with conditions still outstanding, the
    retry budget is used up and the run fails with
    [failed_conditions] listing the raw string of every condition that
    is still outstanding, in order. *)
Theorem exhausted_reports_outstanding p w cs w0 st w1 :
  build_conditionals (given_wait_for p) w = (Ok cs, w0) ->
  while_loop (Z.to_nat (param_retries p)) p (param_commands p)
             (initial p cs) w0 = (Ok st, w1) ->
  conditionals st <> [] ->
  main p w =
  (Exit (fail_json msg_failed (Some (map raw (conditionals st))) None), w1) /\
  retries st <= 0.
Proof.
  intros Hbuild Hloop Hleft. split.
  - rewrite main_eq, Hbuild, Hloop. now apply finish_failed.
  - apply while_loop_inv in Hloop
      as [[_ Hle]|[stk [wk [_ [_ Hbreak]]]]]; [assumption|].
    apply iteration_inv in Hbreak
      as [rs [cs' [w' [_ [_ [[_ [_ Hf]]|[_ [_ [_ Hf]]]]]]]]];
      inversion Hf; subst st. now contradiction Hleft.
Qed.

(** C7: when some raw condition string is refused by the parser, the
    run stops at once with the parser's error: reported through
    [fail_json] without [failed_conditions] when it is the
    [AttributeError] that [main] catches, propagating otherwise; never a
    retry-exhaustion failure, and with the world untouched: no command
    was executed, no condition evaluated, no sleep. *)
Theorem invalid_condition_aborts p w :
  (exists c, In c (given_wait_for p) /\ ~ accepted c) ->
  exists c e,
    In c (given_wait_for p) /\ Conditional_init c = Raises e /\
    main p w = (rejected e, w) /\
    (forall msg failed exc,
        fst (main p w) <> Exit (fail_json msg (Some failed) exc)).
Proof.
  intros [c0 [Hin Hbad]].
  destruct (first_rejected Conditional_init (given_wait_for p))
    as [Hall|[pre [c [post [e [Heq [Hpre Hc]]]]]]].
  - exfalso. apply Hbad. rewrite Forall_forall in Hall. now apply Hall.
  - exists c, e.
    assert (Hmain : main p w = (rejected e, w)).
    { rewrite main_eq, Heq, (build_rejected _ _ _ _ _ _ Hpre Hc).
      destruct e; reflexivity. }
    split; [rewrite Heq; apply in_elt|].
    split; [assumption|]. split; [assumption|].
    intros msg failed exc. rewrite Hmain. destruct e; discriminate.
Qed.


(** The calls made by a pass are calls of a front part of the snapshot,
    in order. *)
Lemma for_items_log m rs items :
  forall cs w r w',
    for_items m rs items cs w = (r, w') ->
    exists called rest,
      items = called ++ rest /\ w' = extend (map EvCall called) w.
Proof.
  induction items as [|item tl IH]; intros cs w r w' H.
  - simpl in H. unfold ret in H. inversion H; subst.
    exists [], []. now rewrite extend_nil.
  - rewrite for_items_cons in H.
    assert (Hone : forall r0, (r0, extend [EvCall item] w) = (r, w') ->
              exists called rest,
                item :: tl = called ++ rest /\
                w' = extend (map EvCall called) w).
    { intros r0 H0. inversion H0; subst. exists [item], tl. auto. }
    assert (Hmore : forall cs0,
              for_items m rs tl cs0 (extend [EvCall item] w) = (r, w') ->
              exists called rest,
                item :: tl = called ++ rest /\
                w' = extend (map EvCall called) w).
    { intros cs0 H0. destruct (IH _ _ _ _ H0) as [called [rest [Heq Hw]]].
      exists (item :: called), rest. subst tl w'.
      now rewrite extend_extend. }
    destruct (Conditional_call (raw item) rs) as [[|]|e]; eauto.
    destruct m; eauto.
    destruct (remove_first item cs); eauto.
Qed.


(** C4: under [any], in a round where some condition evaluates to true
    (those before it in the list evaluating to false), the list of
    outstanding conditions is emptied, the conditions after it are not
    evaluated, the loop is left without a sleep, and the run succeeds
    with the responses of that round. *)
Theorem any_short_circuit p commands fuel warnings st w rs pre item post :
  param_match p = match_any ->
  0 < retries st ->
  device (calls w) commands = Responded rs ->
  conditionals st = pre ++ item :: post ->
  Forall (Fails rs) pre ->
  Holds rs item ->
  iteration p commands st w =
  (Ok (Break {| retries := retries st; conditionals := [];
                responses := Some rs |}),
   extend (map EvCall (pre ++ [item])) (ran w)) /\
  (st' <- while_loop (S fuel) p commands st ;; finish warnings st') w =
  (Exit (exit_json false warnings rs (to_lines rs)),
   extend (map EvCall (pre ++ [item])) (ran w)).
Proof.
  intros Hany Hpos Hdev Hcs Hpre Hitem.
  assert (Hit : iteration p commands st w =
                (Ok (Break {| retries := retries st; conditionals := [];
                              responses := Some rs |}),
                 extend (map EvCall (pre ++ [item])) (ran w))).
  { rewrite iteration_eq, Hdev, Hany, Hcs.
    now rewrite (for_items_any_hit _ _ _ _ _ _ _ Hpre Hitem). }
  split; [assumption|].
  unfold bind. rewrite while_loop_eq.
  destruct (Z.ltb_spec 0 (retries st)); [|lia].
  rewrite Hit. now apply finish_ok.
Qed.


(** Under [all], a completed round keeps exactly the conditions that did
    not evaluate to true, in their order. *)
Lemma round_all p commands st w f w' :
  param_match p = match_all ->
  NoDup (map ident (conditionals st)) ->
  iteration p commands st w = (Ok f, w') ->
  exists rs,
    device (calls w) commands = Responded rs /\
    responses (after f) = Some rs /\
    conditionals (after f) = filter (Stays rs) (conditionals st) /\
    Forall (fun item => Holds rs item \/ Fails rs item) (conditionals st).
Proof.
  intros Hall Hnd Hit.
  apply iteration_inv in Hit as [rs [cs [w1 [Hdev [Hfor Hcases]]]]].
  rewrite Hall in Hfor.
  apply (for_items_all_inv Conditional_call rs (conditionals st) []) in Hfor
    as [Hcs [_ Hret]]; [|assumption].
  simpl in Hcs. exists rs. split; [assumption|].
  destruct Hcases as [[Hnil [_ ->]]|[_ [_ [_ ->]]]]; simpl;
    repeat split; auto; congruence.
Qed.

(** And the round does complete when the device answers, every call
    returns and the sleep is accepted. *)
Lemma round_all_completes p commands st w rs :
  param_match p = match_all ->
  NoDup (map ident (conditionals st)) ->
  0 <= param_interval p <= max_sleep ->
  device (calls w) commands = Responded rs ->
  Forall (fun item => Holds rs item \/ Fails rs item) (conditionals st) ->
  exists f w',
    iteration p commands st w = (Ok f, w') /\
    conditionals (after f) = filter (Stays rs) (conditionals st).
Proof.
  intros Hall Hnd Hint Hdev Hret.
  rewrite iteration_eq, Hdev, Hall.
  rewrite (for_items_all_run Conditional_call rs (conditionals st) [])
    by assumption.
  simpl app. destruct (filter (Stays rs) (conditionals st)) as [|c cs].
  - eexists _, _. split; reflexivity.
  - cbn [is_empty].
    rewrite sleep_error_none by assumption.
    eexists _, _. split; reflexivity.
Qed.

Lemma rounds_all p commands st w st' w' :
  param_match p = match_all ->
  rounds p commands st w st' w' ->
  NoDup (map ident (conditionals st)) ->
  NoDup (map ident (conditionals st')) /\
  incl (conditionals st') (conditionals st) /\
  (List.length (conditionals st') <= List.length (conditionals st))%nat.
Proof.
  intros Hall Hr.
  induction Hr as [st w|st w st1 w1 st2 w2 Hpos Hit Hrest IH]; intros Hnd.
  - split; [assumption|]. split; [apply incl_refl|lia].
  - destruct (round_all _ _ _ _ _ _ Hall Hnd Hit)
      as [rs [_ [_ [Hcs _]]]]. simpl in Hcs.
    destruct IH as [Hnd2 [Hincl Hlen]].
    { rewrite Hcs. now apply NoDup_ident_filter. }
    split; [assumption|]. rewrite Hcs in Hincl, Hlen. split.
    + eapply incl_tran; [exact Hincl|apply incl_filter].
    + pose proof (filter_length_le (Stays rs) (conditionals st)). lia.
Qed.

(** C5: under [all], along a run, each completed round keeps the
    outstanding conditions that evaluated to false and drops those that
    evaluated to true; whatever rounds follow, the outstanding list only
    loses elements, and a condition dropped in a round is in no later
    outstanding list. *)
Theorem all_outstanding_shrinks p commands wait_for n w0 st w f w1 st2 w2 :
  param_match p = match_all ->
  rounds p commands (initial p (objects n wait_for)) w0 st w ->
  iteration p commands st w = (Ok f, w1) ->
  rounds p commands (after f) w1 st2 w2 ->
  exists rs,
    device (calls w) commands = Responded rs /\
    conditionals (after f) = filter (Stays rs) (conditionals st) /\
    (forall item, In item (conditionals st) -> Holds rs item ->
                  ~ In item (conditionals (after f)) /\
                  ~ In item (conditionals st2)) /\
    (forall item, In item (conditionals st) -> Fails rs item ->
                  In item (conditionals (after f))) /\
    incl (conditionals st2) (conditionals (after f)) /\
    incl (conditionals (after f)) (conditionals st) /\
    incl (conditionals st) (objects n wait_for) /\
    (List.length (conditionals st2) <= List.length (conditionals (after f))
     <= List.length (conditionals st))%nat.
Proof.
  intros Hall Hbefore Hit Hafter.
  destruct (rounds_all _ _ _ _ _ _ Hall Hbefore (objects_NoDup n wait_for))
    as [Hnd [Hincl0 _]].
  destruct (round_all _ _ _ _ _ _ Hall Hnd Hit) as [rs [Hdev [_ [Hcs _]]]].
  destruct (rounds_all _ _ _ _ _ _ Hall Hafter) as [_ [Hincl2 Hlen2]].
  { rewrite Hcs. now apply NoDup_ident_filter. }
  assert (Hgone : forall item, Holds rs item ->
                               ~ In item (conditionals (after f))).
  { intros item Hh Hin. rewrite Hcs in Hin.
    apply filter_In in Hin as [_ Hstay].
    unfold stays in Hstay. red in Hh. rewrite Hh in Hstay. discriminate. }
  exists rs. split; [assumption|]. split; [assumption|].
  split; [|split; [|split; [|split; [|split]]]].
  - intros item _ Hh. split; [now apply Hgone|].
    intros Hin. apply (Hgone item Hh). now apply Hincl2.
  - intros item Hin Hf. rewrite Hcs. apply filter_In. split; [assumption|].
    unfold stays. red in Hf. now rewrite Hf.
  - assumption.
  - rewrite Hcs. apply incl_filter.
  - assumption.
  - pose proof (filter_length_le (Stays rs) (conditionals st)) as Hle.
    rewrite <- Hcs in Hle. lia.
Qed.

(** C9: a successful run returns as [stdout] the responses of the round
    that emptied the outstanding list, the last round of the run, and
    as [stdout_lines] those responses with every text element replaced
    by the list of its lines, its pieces between newlines. *)
Theorem success_returns_round_responses p w changed warnings out lines w' :
  main p w = (Exit (exit_json changed warnings out lines), w') ->
  exists stk wk,
    rounds p (param_commands p)
           (initial p (objects 0 (given_wait_for p))) w stk wk /\
    0 < retries stk /\
    device (calls wk) (param_commands p) = Responded out /\
    iteration p (param_commands p) stk wk =
    (Ok (Break {| retries := retries stk; conditionals := [];
                  responses := Some out |}), w') /\
    lines = map split_item out /\
    (forall i s,
        nth_error out i = Some (VStr s) ->
        nth_error lines i = Some (VList (map VStr (split newline s))) /\
        String.concat (String newline EmptyString) (split newline s) = s /\
        (forall piece, In piece (split newline s) ->
                       occurs newline piece = false)).
Proof.
  rewrite main_eq. intros H.
  destruct (first_rejected Conditional_init (given_wait_for p))
    as [Hacc|[pre [c [post [e [Heq [Hpre Hc]]]]]]].
  2:{ rewrite Heq, (build_rejected _ _ _ _ _ _ Hpre Hc) in H.
      destruct e; discriminate. }
  rewrite build_accepted in H by assumption.
  destruct (while_loop _ p _ _ w) as [[st|e|j|] w1] eqn:Hloop;
    try discriminate.
  2:{ apply while_loop_exit in Hloop as [msg ->]. discriminate. }
  unfold finish, bind in H.
  destruct (conditionals st) as [|c cs] eqn:Hcs; [|discriminate].
  simpl in H.
  destruct (responses st) as [rs|] eqn:Hrs; [|discriminate].
  inversion H; subst changed warnings out lines w1. clear H.
  assert (Hlines : to_lines rs = map split_item rs) by apply to_lines_map.
  apply while_loop_inv in Hloop
    as [[Hr Hle]|[stk [wk [Hr [Hpos Hbreak]]]]].
  - exfalso. apply rounds_last in Hr as [[-> _]|Hne].
    + discriminate.
    + now apply Hne.
  - exists stk, wk. split; [assumption|]. split; [assumption|].
    pose proof Hbreak as Hinv.
    apply iteration_inv in Hinv
      as [rs' [cs' [w0 [Hdev [_ [[_ [_ Hf]]|[_ [_ [_ Hf]]]]]]]]];
      inversion Hf; subst st. simpl in Hrs. inversion Hrs; subst rs'.
    split; [assumption|]. split; [assumption|]. split; [assumption|].
    intros i s Hnth. split; [|split; [apply concat_split|]].
    + rewrite Hlines, nth_error_map, Hnth. reflexivity.
    + intros piece. apply split_pieces_clean.
Qed.

End Claims.

(** ** Two runs against a steady device *)

Section Steady.

Variable Conditional_init : string -> returned unit.
Variable Conditional_call : string -> list value -> returned bool.
Variable check_args : params -> list string -> list string.
(** The device of the first run and of the second. *)
Variables device1 device2 : nat -> list Command -> reply.




End Steady.

(** ** The EXAMPLES and the scenarios, run *)

Import Demo.

(** Output with the expected text on the first round: success with the
    responses of that round. *)
Example run_version_vrp :
  run vrp (version_task 10) boot =
  (Exit (exit_json false [] vrp [VList [VStr "HUAWEI VRP Software"]]),
   {| calls := 1; log := [EvRun 0; EvCall (Build_conditional 0 huawei)] |}).
Proof. vm_compute. reflexivity. Qed.

(** Output that never has the expected text: ten rounds, then failure. *)
Example run_version_ios :
  fst (run ios (version_task 10) boot) =
  Exit (fail_json msg_failed (Some [huawei]) None) /\
  executions (log (snd (run ios (version_task 10) boot))) = 10%nat /\
  sleeps (log (snd (run ios (version_task 10) boot))) = 10%nat.
Proof. vm_compute. auto. Qed.

(** Under [any] the first condition is enough. *)
Example run_two_any :
  run vrp_no_board (two_task match_any) boot =
  (Exit (exit_json false [] vrp_no_board
           [VList [VStr "HUAWEI VRP Software"]; VList [VStr "no board info"]]),
   {| calls := 1; log := [EvRun 0; EvCall c_huawei] |}).
Proof. vm_compute. reflexivity. Qed.

(** A condition on a response that does not exist: the first evaluation
    raises, after one execution and before any sleep. *)
Example run_index_out_of_range :
  run vrp {| param_commands := [display "display version"];
             param_wait_for := Some ["result[5] contains X"];
             param_match := match_all;
             param_retries := 10;
             param_interval := 1;
             check_mode := false |} boot =
  (Raise (OtherError "index out of range"),
   {| calls := 1;
      log := [EvRun 0; EvCall (Build_conditional 0 "result[5] contains X")] |}).
Proof. vm_compute. reflexivity. Qed.

(** In check mode a command that is not a display command is warned
    about, and the batch is run all the same. *)
Example run_check_mode :
  run vrp {| param_commands := [display "display version"; display "reboot"];
             param_wait_for := None;
             param_match := match_all;
             param_retries := 10;
             param_interval := 1;
             check_mode := true |} boot =
  (Exit (exit_json false
           ["Only display commands are supported when using check_mode, not executing reboot"]
           vrp (to_lines vrp)),
   ran boot).
Proof. vm_compute. reflexivity. Qed.

Example to_lines_two_lines :
  to_lines [VStr "a
b"; VInt 7] = [VList [VStr "a"; VStr "b"]; VInt 7].
Proof. reflexivity. Qed.

(** ** The theorems at concrete runs *)


Lemma no_retries_no_execution_witness :
  param_retries (plain_task 0) <= 0 /\
  snd (run vrp (plain_task 0) boot) = boot /\
  (given_wait_for (plain_task 0) = [] ->
   run vrp (plain_task 0) boot = (Raise (UnboundLocalError "responses"), boot)).
Proof.
  split; [simpl; lia|].
  apply (no_retries_no_execution init eval (steady vrp) no_check
           (plain_task 0) boot).
  simpl. lia.
Defined.

(** C3 as stated fails: with no condition and a budget of zero the run
    executes nothing and does not succeed. *)
Lemma empty_wait_for_without_budget :
  given_wait_for (plain_task 0) = [] /\
  succeeded (fst (run vrp (plain_task 0) boot)) = false /\
  executions (log (snd (run vrp (plain_task 0) boot))) <> 1%nat.
Proof. vm_compute. repeat split; discriminate. Qed.

Lemma empty_wait_for_one_round_witness :
  0 < param_retries (plain_task 10) /\
  run vrp (plain_task 10) boot =
  (Exit (exit_json false [] vrp (to_lines vrp)), ran boot) /\
  executions (log (ran boot)) = S (executions (log boot)) /\
  sleeps (log (ran boot)) = sleeps (log boot).
Proof.
  split; [simpl; lia|].
  apply (empty_wait_for_one_round init eval (steady vrp) no_check
           (plain_task 10) boot vrp).
  - unfold max_sleep; simpl; lia.
  - reflexivity.
  - reflexivity.
Defined.

Lemma any_short_circuit_witness :
  iteration eval (steady ios_board) (two_task match_any)
            (param_commands (two_task match_any)) (two_start match_any) boot =
  (Ok (Break {| retries := 10; conditionals := [];
                responses := Some ios_board |}),
   extend (map EvCall ([c_huawei] ++ [c_board])) (ran boot)) /\
  (st' <- while_loop eval (steady ios_board) 10 (two_task match_any)
            (param_commands (two_task match_any)) (two_start match_any) ;;
   finish [] st') boot =
  (Exit (exit_json false [] ios_board (to_lines ios_board)),
   extend (map EvCall ([c_huawei] ++ [c_board])) (ran boot)).
Proof.
  apply (any_short_circuit eval (steady ios_board) (two_task match_any)
           (param_commands (two_task match_any)) 9 [] (two_start match_any)
           boot ios_board [c_huawei] c_board []).
  - reflexivity.
  - unfold max_sleep; simpl; lia.
  - reflexivity.
  - reflexivity.
  - repeat constructor.
  - reflexivity.
Defined.

Lemma all_outstanding_shrinks_witness :
  exists rs,
    steady vrp_no_board (calls boot) (param_commands (two_task match_all))
    = Responded rs /\
    conditionals (after (Next (two_later 9))) =
    filter (stays eval rs) (conditionals (two_start match_all)) /\
    (forall item,
        In item (conditionals (two_start match_all)) -> holds eval rs item ->
        ~ In item (conditionals (after (Next (two_later 9)))) /\
        ~ In item (conditionals (two_later 8))) /\
    (forall item,
        In item (conditionals (two_start match_all)) -> fails eval rs item ->
        In item (conditionals (after (Next (two_later 9))))) /\
    incl (conditionals (two_later 8))
         (conditionals (after (Next (two_later 9)))) /\
    incl (conditionals (after (Next (two_later 9))))
         (conditionals (two_start match_all)) /\
    incl (conditionals (two_start match_all)) (objects 0 [huawei; board]) /\
    (List.length (conditionals (two_later 8))
     <= List.length (conditionals (after (Next (two_later 9))))
     <= List.length (conditionals (two_start match_all)))%nat.
Proof.
  apply (all_outstanding_shrinks eval (steady vrp_no_board)
           (two_task match_all) (param_commands (two_task match_all))
           [huawei; board] 0 boot (two_start match_all) boot
           (Next (two_later 9)) (snd (two_round (two_start match_all) boot))
           (two_later 8)
           (snd (two_round (two_later 9)
                   (snd (two_round (two_start match_all) boot))))).
  - reflexivity.
  - apply rounds_here.
  - vm_compute. reflexivity.
  - apply rounds_more with
      (st1 := two_later 8)
      (w1 := snd (two_round (two_later 9)
                    (snd (two_round (two_start match_all) boot)))).
    + simpl. lia.
    + vm_compute. reflexivity.
    + apply rounds_here.
Defined.

Lemma exhausted_reports_outstanding_witness :
  run ios (version_task 3) boot =
  (Exit (fail_json msg_failed (Some (map raw (conditionals version_end)))
           None),
   snd version_loop) /\
  retries version_end <= 0.
Proof.
  apply (exhausted_reports_outstanding init eval (steady ios) no_check
           (version_task 3) boot (objects 0 [huawei]) boot
           version_end (snd version_loop)).
  - reflexivity.
  - vm_compute. reflexivity.
  - discriminate.
Defined.

Lemma invalid_condition_aborts_witness :
  exists c e,
    In c (given_wait_for bad_task) /\ init c = Raises e /\
    run vrp bad_task boot = (rejected e, boot) /\
    (forall msg failed exc,
        fst (run vrp bad_task boot) <> Exit (fail_json msg (Some failed) exc)).
Proof.
  apply (invalid_condition_aborts init eval (steady vrp) no_check
           bad_task boot).
  exists "result[0] resembles HUAWEI"%string. split.
  - simpl. auto.
  - intros H. vm_compute in H. discriminate.
Defined.


Lemma success_returns_round_responses_witness :
  exists stk wk,
    rounds eval (steady vrp) (version_task 10)
           (param_commands (version_task 10))
           (initial (version_task 10) (objects 0 (given_wait_for (version_task 10))))
           boot stk wk /\
    0 < retries stk /\
    steady vrp (calls wk) (param_commands (version_task 10)) = Responded vrp /\
    iteration eval (steady vrp) (version_task 10)
              (param_commands (version_task 10)) stk wk =
    (Ok (Break {| retries := retries stk; conditionals := [];
                  responses := Some vrp |}),
     {| calls := 1; log := [EvRun 0; EvCall (Build_conditional 0 huawei)] |}) /\
    [VList [VStr "HUAWEI VRP Software"]] = map split_item vrp /\
    (forall i s,
        nth_error vrp i = Some (VStr s) ->
        nth_error [VList [VStr "HUAWEI VRP Software"]] i =
        Some (VList (map VStr (split newline s))) /\
        String.concat (String newline EmptyString) (split newline s) = s /\
        (forall piece, In piece (split newline s) ->
                       occurs newline piece = false)).
Proof.
  apply (success_returns_round_responses init eval (steady vrp) no_check
           (version_task 10) boot false []).
  vm_compute. reflexivity.
Defined.


(** * Further properties of the module *)

(** ** [to_lines] *)

Lemma split_length (sep : ascii) (s : string) :
  List.length (split sep s) = S (count_sep sep s).
Proof.
  induction s as [|c s IH]; simpl; [reflexivity|].
  destruct (Ascii.eqb c sep); simpl; [now rewrite IH|].
  pose proof (split_not_nil sep s) as Hnil.
  destruct (split sep s) as [|q qs]; [contradiction|]. exact IH.
Qed.

Lemma split_no_sep (sep : ascii) (s : string) :
  count_sep sep s = 0%nat -> split sep s = [s].
Proof.
  induction s as [|c s IH]; simpl; [reflexivity|].
  destruct (Ascii.eqb c sep); [discriminate|].
  intros H. now rewrite IH.
Qed.

Lemma split_item_twice (item : value) :
  split_item (split_item item) = split_item item.
Proof. destruct item; reflexivity. Qed.

(** X1: [to_lines] returns one entry for each response, in the same
    order: a text response becomes the list of its lines, and any other
    value is passed through as it is. *)
Theorem to_lines_entries (stdout : list value) :
  List.length (to_lines stdout) = List.length stdout /\
  (forall i s,
      nth_error stdout i = Some (VStr s) ->
      nth_error (to_lines stdout) i =
      Some (VList (map VStr (split newline s)))) /\
  (forall i item,
      nth_error stdout i = Some item ->
      (forall s, item <> VStr s) ->
      nth_error (to_lines stdout) i = Some item).
Proof.
  rewrite to_lines_map. split; [apply length_map|]. split.
  - intros i s H. now rewrite nth_error_map, H.
  - intros i item H Hother. rewrite nth_error_map, H. simpl.
    destruct item; try reflexivity. exfalso. now apply (Hother s).
Qed.

(** X2: the lines of a text are one more than its newlines, none of
    them contains a newline, joined by newlines they give the text back,
    and a text without a newline is its own single line. *)
Theorem lines_of_text (s : string) :
  List.length (split newline s) = S (count_sep newline s) /\
  (forall piece, In piece (split newline s) -> occurs newline piece = false) /\
  String.concat (String newline EmptyString) (split newline s) = s /\
  (count_sep newline s = 0%nat -> split newline s = [s]).
Proof.
  split; [apply split_length|]. split; [intros piece; apply split_pieces_clean|].
  split; [apply concat_split|apply split_no_sep].
Qed.

(** [to_lines] applied to its own result changes nothing: lists of
    lines are not text and are passed through. *)
Lemma to_lines_twice (stdout : list value) :
  to_lines (to_lines stdout) = to_lines stdout.
Proof.
  rewrite !to_lines_map, map_map.
  apply map_ext. intros item. apply split_item_twice.
Qed.

(** ** [parse_commands] *)

Lemma parse_commands_loop_eq (check : bool) (commands : list Command) :
  forall warnings,
    parse_commands_loop check commands warnings =
    warnings ++
    (if check
     then map check_warning (filter (fun item => negb (is_display item)) commands)
     else []).
Proof.
  induction commands as [|item rest IH]; intros warnings; simpl.
  - destruct check; now rewrite app_nil_r.
  - rewrite IH. destruct check; simpl; [|reflexivity].
    unfold is_display at 2.
    destruct (String.prefix "dis" (command item)); simpl; [reflexivity|].
    now rewrite <- app_assoc.
Qed.

(** X3: [parse_commands] keeps the warnings it received, in order, and
    adds to them, in check mode, one warning for each of the transformed
    commands whose text does not start with [dis], in the order of the
    commands; outside check mode it adds nothing. *)
Theorem parse_commands_warnings (p : params) (warnings : list string) :
  snd (parse_commands p warnings) =
  warnings ++
  (if check_mode p
   then map check_warning
            (filter (fun item => negb (is_display item)) (param_commands p))
   else []).
Proof.
  unfold parse_commands. cbn [snd]. apply parse_commands_loop_eq.
Qed.

(** ** The retry budget *)

Lemma executions_round k called tl :
  executions (EvRun k :: map EvCall called ++ tl) = S (executions tl).
Proof.
  change (EvRun k :: map EvCall called ++ tl)
    with ([EvRun k] ++ map EvCall called ++ tl).
  now rewrite !executions_app, executions_calls.
Qed.

Lemma sleeps_round k called tl :
  sleeps (EvRun k :: map EvCall called ++ tl) = sleeps tl.
Proof.
  change (EvRun k :: map EvCall called ++ tl)
    with ([EvRun k] ++ map EvCall called ++ tl).
  now rewrite !sleeps_app, sleeps_calls.
Qed.

Section Budget.

Variable Conditional_init : string -> returned unit.
Variable Conditional_call : string -> list value -> returned bool.
Variable device : nat -> list Command -> reply.
Variable check_args : params -> list string -> list string.

Local Notation accepted := (accepted Conditional_init).
Local Notation build_conditionals := (build_conditionals Conditional_init).
Local Notation for_items := (for_items Conditional_call).
Local Notation iteration := (iteration Conditional_call device).
Local Notation while_loop := (while_loop Conditional_call device).
Local Notation rounds := (rounds Conditional_call device).
Local Notation Holds := (holds Conditional_call).
Local Notation Fails := (fails Conditional_call).
Local Notation Stays := (stays Conditional_call).
Local Notation warnings_of := (warnings_of check_args).
Local Notation main :=
  (main Conditional_init Conditional_call device check_args).

(** What one pass through the body adds to the world, however it ends. *)
Lemma iteration_log p commands st w r w' :
  iteration p commands st w = (r, w') ->
  exists called,
    calls w' = S (calls w) /\
    log w' =
    log w ++ EvRun (calls w) :: map EvCall called ++
    match r with
    | Ok (Next _) => [EvSleep (param_interval p)]
    | _ => []
    end /\
    (forall st', r = Ok (Next st') -> retries st' = retries st - 1).
Proof.
  rewrite iteration_eq. intros H.
  destruct (device (calls w) commands) as [rs|msg|e].
  - destruct (for_items _ rs _ _ (ran w)) as [r1 w1] eqn:Hfor.
    destruct (for_items_log _ _ _ _ _ _ _ _ Hfor)
      as [called [rest [_ Hw1]]].
    exists called. subst w1. rewrite ran_extend in H.
    destruct r1 as [cs|e|j|].
    + destruct (is_empty cs).
      * inversion H; subst; simpl. rewrite app_nil_r.
        repeat split; auto. discriminate.
      * destruct (sleep_error (param_interval p)); inversion H; subst; simpl.
        -- rewrite app_nil_r. repeat split; auto. discriminate.
        -- rewrite <- app_assoc. repeat split; auto.
           intros st' Hst. inversion Hst; subst. reflexivity.
    + inversion H; subst; simpl. rewrite app_nil_r.
      repeat split; auto. discriminate.
    + inversion H; subst; simpl. rewrite app_nil_r.
      repeat split; auto. discriminate.
    + inversion H; subst; simpl. rewrite app_nil_r.
      repeat split; auto. discriminate.
  - exists []. inversion H; subst; simpl. repeat split; auto. discriminate.
  - exists []. inversion H; subst; simpl. repeat split; auto. discriminate.
Qed.

Lemma iteration_counts p commands st w r w' :
  iteration p commands st w = (r, w') ->
  calls w' = S (calls w) /\
  executions (log w') = S (executions (log w)) /\
  sleeps (log w') =
  (sleeps (log w) + match r with Ok (Next _) => 1 | _ => 0 end)%nat.
Proof.
  intros H. destruct (iteration_log _ _ _ _ _ _ H) as [called [Hc [Hl _]]].
  split; [assumption|]. rewrite Hl, executions_app, sleeps_app.
  rewrite executions_round, sleeps_round.
  set (tl := match r with
             | Ok (Next _) => [EvSleep (param_interval p)]
             | _ => []
             end).
  assert (Hrun : executions tl = 0%nat)
    by (subst tl; destruct r as [[?|?]|?|?|]; reflexivity).
  assert (Hsl : sleeps tl = match r with Ok (Next _) => 1 | _ => 0 end%nat)
    by (subst tl; destruct r as [[?|?]|?|?|]; reflexivity).
  rewrite Hrun, Hsl. split; [lia|reflexivity].
Qed.

(** [k] full rounds: the counter is [k] less, and [k] executions and
    [k] sleeps were added. *)
Lemma rounds_counts p commands st w st' w' :
  rounds p commands st w st' w' ->
  exists k,
    retries st' = retries st - Z.of_nat k /\
    calls w' = (calls w + k)%nat /\
    executions (log w') = (executions (log w) + k)%nat /\
    sleeps (log w') = (sleeps (log w) + k)%nat /\
    (k = 0%nat \/ 0 <= retries st').
Proof.
  induction 1 as [st w|st w st1 w1 st2 w2 Hpos Hit Hrest IH].
  - exists 0%nat. repeat split; try lia.
  - destruct IH as [k [Hr [Hc [He [Hs Hk]]]]].
    destruct (iteration_log _ _ _ _ _ _ Hit) as [called [_ [_ Hnext]]].
    specialize (Hnext st1 eq_refl).
    destruct (iteration_counts _ _ _ _ _ _ Hit) as [Hc1 [He1 Hs1]].
    exists (S k). repeat split; lia.
Qed.

(** Whatever happens in the loop, it adds at most [retries] executions,
    and no more sleeps than executions. *)
Lemma while_loop_bound p commands fuel :
  forall st w r w',
    while_loop fuel p commands st w = (r, w') ->
    exists k s,
      calls w' = (calls w + k)%nat /\
      executions (log w') = (executions (log w) + k)%nat /\
      sleeps (log w') = (sleeps (log w) + s)%nat /\
      (s <= k <= Z.to_nat (retries st))%nat.
Proof.
  induction fuel as [|fuel IH]; intros st w r w' H.
  - simpl in H. exists 0%nat, 0%nat.
    destruct (0 <? retries st); inversion H; subst; repeat split; lia.
  - rewrite while_loop_eq in H.
    destruct (Z.ltb_spec 0 (retries st)) as [Hpos|Hle].
    + destruct (iteration p commands st w) as [r1 w1] eqn:Hit.
      destruct (iteration_counts _ _ _ _ _ _ Hit) as [Hc1 [He1 Hs1]].
      destruct (iteration_log _ _ _ _ _ _ Hit) as [called [_ [_ Hnext]]].
      destruct r1 as [[st1|st1]|e|j|].
      * specialize (Hnext st1 eq_refl).
        destruct (IH _ _ _ _ H) as [k [s [Hc [He [Hs Hb]]]]].
        exists (S k), (S s). repeat split; lia.
      * inversion H; subst. exists 1%nat, 0%nat. repeat split; lia.
      * inversion H; subst. exists 1%nat, 0%nat. repeat split; lia.
      * inversion H; subst. exists 1%nat, 0%nat. repeat split; lia.
      * inversion H; subst. exists 1%nat, 0%nat. repeat split; lia.
    + inversion H; subst. exists 0%nat, 0%nat. repeat split; lia.
Qed.

Lemma finish_world warnings st w : snd (finish warnings st w) = w.
Proof.
  unfold finish, bind. destruct (conditionals st); simpl;
    [destruct (responses st)|]; reflexivity.
Qed.

(** [main] with a condition list that the parser accepts. *)
Lemma main_accepted p w :
  Forall accepted (given_wait_for p) ->
  main p w =
  match while_loop (Z.to_nat (param_retries p)) p (param_commands p)
                   (initial p (objects 0 (given_wait_for p))) w with
  | (Ok st, w1) => finish (warnings_of p) st w1
  | (Raise e, w1) => (Raise e, w1)
  | (Exit j, w1) => (Exit j, w1)
  | (OutOfFuel, w1) => (OutOfFuel, w1)
  end.
Proof.
  intros Hacc. rewrite main_eq. now rewrite build_accepted.
Qed.

(** X4: whatever the collaborators do and however the run ends, [main]
    executes the batch at most [retries] times (never for
    [retries <= 0]) and sleeps no more often than it executes. *)
Theorem executions_within_budget p w :
  exists k s,
    calls (snd (main p w)) = (calls w + k)%nat /\
    executions (log (snd (main p w))) = (executions (log w) + k)%nat /\
    sleeps (log (snd (main p w))) = (sleeps (log w) + s)%nat /\
    (s <= k <= Z.to_nat (param_retries p))%nat.
Proof.
  destruct (first_rejected Conditional_init (given_wait_for p))
    as [Hacc|[pre [c [post [e [Heq [Hpre Hc]]]]]]].
  - rewrite main_accepted by assumption.
    destruct (while_loop _ p _ _ w) as [r w1] eqn:Hloop.
    destruct (while_loop_bound _ _ _ _ _ _ _ Hloop)
      as [k [s [Hc [He [Hs Hb]]]]].
    exists k, s. simpl retries in Hb.
    destruct r as [st|e|j|]; simpl; try rewrite finish_world; auto.
  - rewrite main_eq, Heq, (build_rejected _ _ _ _ _ _ Hpre Hc).
    exists 0%nat, 0%nat. destruct e; simpl; repeat split; lia.
Qed.

(** Under [any], a pass that ends normally leaves the list as it was or
    empties it. *)
Lemma for_items_any_inv rs items :
  forall cs w cs' w',
    for_items match_any rs items cs w = (Ok cs', w') ->
    cs' = cs \/ cs' = [].
Proof.
  induction items as [|item rest IH]; intros cs w cs' w' H.
  - simpl in H. unfold ret in H. inversion H; auto.
  - rewrite for_items_cons in H.
    destruct (Conditional_call (raw item) rs) as [[|]|e]; try discriminate.
    + inversion H; auto.
    + eapply IH; eauto.
Qed.

Lemma rounds_any p commands st w st' w' :
  param_match p = match_any ->
  rounds p commands st w st' w' ->
  conditionals st' = conditionals st.
Proof.
  intros Hany. induction 1 as [st w|st w st1 w1 st2 w2 Hpos Hit Hrest IH];
    [reflexivity|].
  rewrite IH.
  apply iteration_inv in Hit
    as [rs [cs [w0 [_ [Hfor [[_ [_ Hf]]|[Hne [_ [_ Hf]]]]]]]]];
    inversion Hf; subst. simpl.
  rewrite Hany in Hfor.
  apply for_items_any_inv in Hfor as [Hsame|Hnil]; congruence.
Qed.

(** Along a run the outstanding conditions are among those built. *)
Lemma rounds_incl p commands n wait_for w st' w' :
  rounds p commands (initial p (objects n wait_for)) w st' w' ->
  incl (conditionals st') (objects n wait_for).
Proof.
  intros Hr. destruct (param_match p) eqn:Hm.
  - rewrite (rounds_any _ _ _ _ _ _ Hm Hr). apply incl_refl.
  - now destruct (rounds_all _ _ _ _ _ _ _ _ Hm Hr (objects_NoDup n wait_for))
      as [_ [Hincl _]].
Qed.

(** X5: a run that fails with [failed_conditions] does so with the
    fixed message and no exception attached, after exactly [retries]
    rounds, each with one execution and one sleep; the list is not
    empty and holds only conditions of [wait_for], and under [any] it
    is the whole of [wait_for]. *)
Theorem retry_exhaustion_report p w msg failed exc w' :
  main p w = (Exit (fail_json msg (Some failed) exc), w') ->
  msg = msg_failed /\ exc = None /\
  failed <> [] /\ incl failed (given_wait_for p) /\
  (param_match p = match_any -> failed = given_wait_for p) /\
  executions (log w') =
  (executions (log w) + Z.to_nat (param_retries p))%nat /\
  sleeps (log w') = (sleeps (log w) + Z.to_nat (param_retries p))%nat.
Proof.
  intros H.
  destruct (first_rejected Conditional_init (given_wait_for p))
    as [Hacc|[pre [c [post [e [Heq [Hpre Hc]]]]]]].
  2:{ rewrite main_eq, Heq, (build_rejected _ _ _ _ _ _ Hpre Hc) in H.
      destruct e; discriminate. }
  rewrite main_accepted in H by assumption.
  destruct (while_loop _ p _ _ w) as [[st|e|j|] w1] eqn:Hloop;
    try discriminate.
  2:{ apply while_loop_exit in Hloop as [m ->]. discriminate. }
  unfold finish, bind in H.
  destruct (conditionals st) as [|c cs] eqn:Hcs.
  { simpl in H. destruct (responses st); discriminate. }
  simpl in H. inversion H; subst msg failed exc w1. clear H.
  apply while_loop_inv in Hloop
    as [[Hr Hle]|[stk [wk [_ [_ Hbreak]]]]].
  2:{ apply iteration_inv in Hbreak
        as [rs [cs' [w0 [_ [_ [[_ [_ Hf]]|[_ [_ [_ Hf]]]]]]]]];
        inversion Hf; subst st. discriminate. }
  split; [reflexivity|]. split; [reflexivity|]. split; [discriminate|].
  pose proof (rounds_incl _ _ _ _ _ _ _ Hr) as Hincl.
  rewrite Hcs in Hincl.
  split.
  { change (raw c :: map raw cs) with (map raw (c :: cs)).
    rewrite <- (objects_raw (given_wait_for p) 0). now apply incl_map. }
  split.
  { intros Hany. pose proof (rounds_any _ _ _ _ _ _ Hany Hr) as Hsame.
    rewrite Hcs in Hsame. simpl in Hsame.
    change (raw c :: map raw cs) with (map raw (c :: cs)).
    rewrite Hsame. apply objects_raw. }
  destruct (rounds_counts _ _ _ _ _ _ Hr) as [k [Hk [_ [He [Hs Hz]]]]].
  simpl retries in Hk.
  assert (Z.to_nat (param_retries p) = k) as -> by (destruct Hz; lia).
  split; assumption.
Qed.

(** X6: a run that succeeds has executed the batch [k] times with
    [1 <= k <= retries] and slept [k - 1] times; its [stdout] is the
    answer of the device to the last of these executions, its
    [stdout_lines] the lines of that answer, its [warnings] those of
    [check_args] and [parse_commands], and [changed] is false. *)
Theorem success_report p w changed warnings out lines w' :
  main p w = (Exit (exit_json changed warnings out lines), w') ->
  exists k,
    (1 <= k <= Z.to_nat (param_retries p))%nat /\
    executions (log w') = (executions (log w) + k)%nat /\
    sleeps (log w') = (sleeps (log w) + k - 1)%nat /\
    device (calls w + k - 1)%nat (param_commands p) = Responded out /\
    lines = to_lines out /\
    warnings = warnings_of p /\
    changed = false.
Proof.
  intros H.
  destruct (first_rejected Conditional_init (given_wait_for p))
    as [Hacc|[pre [c [post [e [Heq [Hpre Hc]]]]]]].
  2:{ rewrite main_eq, Heq, (build_rejected _ _ _ _ _ _ Hpre Hc) in H.
      destruct e; discriminate. }
  rewrite main_accepted in H by assumption.
  destruct (while_loop _ p _ _ w) as [[st|e|j|] w1] eqn:Hloop;
    try discriminate.
  2:{ apply while_loop_exit in Hloop as [m ->]. discriminate. }
  unfold finish, bind in H.
  destruct (conditionals st) as [|c cs] eqn:Hcs; [|discriminate].
  simpl in H.
  destruct (responses st) as [rs|] eqn:Hrs; [|discriminate].
  inversion H; subst changed warnings out lines w1. clear H.
  apply while_loop_inv in Hloop
    as [[Hr Hle]|[stk [wk [Hr [Hpos Hbreak]]]]].
  { exfalso. apply rounds_last in Hr as [[-> _]|Hne];
      [discriminate|now apply Hne]. }
  destruct (rounds_counts _ _ _ _ _ _ Hr) as [k [Hk [Hc [He [Hs _]]]]].
  simpl retries in Hk.
  destruct (iteration_counts _ _ _ _ _ _ Hbreak) as [_ [He1 Hs1]].
  apply iteration_inv in Hbreak
    as [rs' [cs' [w0 [Hdev [_ [[_ [_ Hf]]|[_ [_ [_ Hf]]]]]]]]];
    inversion Hf; subst st. simpl in Hrs. inversion Hrs; subst rs'.
  exists (S k). split; [lia|]. split; [lia|]. split; [lia|].
  split; [|auto].
  replace (calls w + S k - 1)%nat with (calls wk) by lia. assumption.
Qed.

End Budget.

(** ** Check mode *)

Section CheckMode.

Variable Conditional_init : string -> returned unit.
Variable Conditional_call : string -> list value -> returned bool.
Variable device : nat -> list Command -> reply.
Variable check_args : params -> list string -> list string.

Local Notation iteration := (iteration Conditional_call device).
Local Notation while_loop := (while_loop Conditional_call device).
Local Notation main :=
  (main Conditional_init Conditional_call device check_args).

Lemma iteration_params p p' commands st w :
  param_match p = param_match p' ->
  param_interval p = param_interval p' ->
  iteration p commands st w = iteration p' commands st w.
Proof.
  intros Hm Hi. rewrite !iteration_eq, Hm, Hi. reflexivity.
Qed.

Lemma while_loop_params p p' commands fuel :
  param_match p = param_match p' ->
  param_interval p = param_interval p' ->
  forall st w,
    while_loop fuel p commands st w = while_loop fuel p' commands st w.
Proof.
  intros Hm Hi. induction fuel as [|fuel IH]; intros st w; [reflexivity|].
  rewrite !while_loop_eq, (iteration_params p p') by assumption.
  destruct (0 <? retries st); [|reflexivity].
  destruct (iteration p' commands st w) as [[[st'|st']|e|j|] w'];
    try reflexivity. apply IH.
Qed.

Lemma finish_warnings ws ws' st w :
  without_warnings (fst (finish ws st w)) =
  without_warnings (fst (finish ws' st w)).
Proof.
  unfold finish, bind. destruct (conditionals st); simpl;
    [destruct (responses st)|]; reflexivity.
Qed.

(** X7: check mode changes nothing but the warnings: with [check_mode]
    set either way, [main] makes the same executions, evaluations and
    sleeps, commands that are not display commands included, and ends
    the same way up to the [warnings] of a successful result. *)
Theorem check_mode_only_warns p b w :
  snd (main (with_check_mode b p) w) = snd (main p w) /\
  without_warnings (fst (main (with_check_mode b p) w)) =
  without_warnings (fst (main p w)).
Proof.
  rewrite !main_eq.
  change (given_wait_for (with_check_mode b p)) with (given_wait_for p).
  change (param_retries (with_check_mode b p)) with (param_retries p).
  change (param_commands (with_check_mode b p)) with (param_commands p).
  destruct (build_conditionals Conditional_init (given_wait_for p) w)
    as [[cs|e|j|] w0]; try (split; reflexivity).
  change (initial (with_check_mode b p) cs) with (initial p cs).
  rewrite (while_loop_params (with_check_mode b p) p) by reflexivity.
  destruct (while_loop _ p _ (initial p cs) w0) as [[st|e|j|] w1];
    try (split; reflexivity).
  split; [now rewrite !finish_world|apply finish_warnings].
Qed.

End CheckMode.

(** ** The course of a run *)

Lemma filter_twice {A} (f g : A -> bool) (l : list A) :
  filter f (filter g l) = filter (fun x => g x && f x) l.
Proof.
  induction l as [|x l IH]; simpl; [reflexivity|].
  destruct (g x); simpl; [destruct (f x)|]; now rewrite IH.
Qed.

Lemma forallb_shift (f : nat -> bool) (k : nat) :
  forallb f (seq 0 (S k)) = f 0%nat && forallb (fun j => f (S j)) (seq 0 k).
Proof.
  cbn [seq forallb]. f_equal.
  rewrite <- seq_shift.
  induction (seq 0 k) as [|j l IH]; simpl; [reflexivity|]. now rewrite IH.
Qed.

Section Course.

Variable Conditional_init : string -> returned unit.
Variable Conditional_call : string -> list value -> returned bool.
Variable device : nat -> list Command -> reply.
Variable check_args : params -> list string -> list string.

Local Notation accepted := (accepted Conditional_init).
Local Notation for_items := (for_items Conditional_call).
Local Notation iteration := (iteration Conditional_call device).
Local Notation while_loop := (while_loop Conditional_call device).
Local Notation rounds := (rounds Conditional_call device).
Local Notation Holds := (holds Conditional_call).
Local Notation Fails := (fails Conditional_call).
Local Notation Stays := (stays Conditional_call).
Local Notation warnings_of := (warnings_of check_args).
Local Notation main :=
  (main Conditional_init Conditional_call device check_args).












(** After [k] rounds under [all], what is outstanding is what has held
    in none of them. *)
Lemma rounds_all_history p commands st w st' w' :
  param_match p = match_all ->
  rounds p commands st w st' w' ->
  NoDup (map ident (conditionals st)) ->
  exists k,
    calls w' = (calls w + k)%nat /\
    forall history,
      (forall j, (j < k)%nat ->
                 device (calls w + j)%nat commands = Responded (history j)) ->
      conditionals st' =
      filter (fun item => forallb (fun j => Stays (history j) item) (seq 0 k))
             (conditionals st).
Proof.
  intros Hall Hr.
  induction Hr as [st w|st w st1 w1 st2 w2 Hpos Hit Hrest IH]; intros Hnd.
  - exists 0%nat. split; [lia|]. intros history _. simpl.
    clear Hnd. generalize (conditionals st). intros l.
    induction l as [|x l IHl]; simpl; [reflexivity|].
    f_equal. exact IHl.
  - destruct (round_all _ _ _ _ _ _ _ _ Hall Hnd Hit)
      as [rs [Hdev [_ [Hcs _]]]]. simpl in Hcs.
    destruct (iteration_counts _ _ _ _ _ _ _ _ Hit) as [Hc1 _].
    destruct IH as [k [Hc Hhist]].
    { rewrite Hcs. now apply NoDup_ident_filter. }
    exists (S k). split; [lia|]. intros history Hh.
    rewrite (Hhist (fun j => history (S j))).
    + rewrite Hcs, filter_twice.
      assert (Hrs : history 0%nat = rs).
      { specialize (Hh 0%nat). rewrite Nat.add_0_r, Hdev in Hh.
        assert (H0 : Responded rs = Responded (history 0%nat))
          by (apply Hh; lia).
        now inversion H0. }
      apply filter_ext. intros item.
      now rewrite forallb_shift, Hrs.
    + intros j Hj. rewrite Hc1.
      specialize (Hh (S j)). rewrite Nat.add_succ_r in Hh.
      apply Hh. lia.
Qed.

(** X12: under [all], at the loop head after [k] rounds, the
    outstanding conditions are exactly the conditions of [wait_for], in
    their order, that evaluated to true in none of the [k] rounds: a
    condition is dropped by the first round in which it holds, whatever
    it does in the others. *)
Theorem all_outstanding_history p commands n wait_for w st' w' :
  param_match p = match_all ->
  rounds p commands (initial p (objects n wait_for)) w st' w' ->
  exists k,
    calls w' = (calls w + k)%nat /\
    retries st' = param_retries p - Z.of_nat k /\
    forall history,
      (forall j, (j < k)%nat ->
                 device (calls w + j)%nat commands = Responded (history j)) ->
      conditionals st' =
      filter (fun item => forallb (fun j => Stays (history j) item) (seq 0 k))
             (objects n wait_for).
Proof.
  intros Hall Hr.
  destruct (rounds_all_history _ _ _ _ _ _ Hall Hr (objects_NoDup n wait_for))
    as [k [Hc Hhist]].
  destruct (rounds_counts _ _ _ _ _ _ _ _ Hr) as [k' [Hk [Hc' _]]].
  assert (k' = k) by lia. subst k'.
  exists k. split; [assumption|]. split; [exact Hk|exact Hhist].
Qed.

End Course.

(** ** The shape of a run *)

Lemma remove_first_incl (x : conditional) (l : list conditional) :
  forall l', remove_first x l = Some l' -> incl l' l.
Proof.
  induction l as [|y l IH]; intros l' H; simpl in H; [discriminate|].
  destruct (same_object y x).
  - inversion H; subst. apply incl_tl, incl_refl.
  - destruct (remove_first x l) as [l0|]; [|discriminate].
    inversion H; subst. intros z [->|Hz]; [now left|].
    right. now apply (IH l0).
Qed.

Section Shape.

Variable Conditional_init : string -> returned unit.
Variable Conditional_call : string -> list value -> returned bool.
Variable device : nat -> list Command -> reply.
Variable check_args : params -> list string -> list string.

Local Notation accepted := (accepted Conditional_init).
Local Notation for_items := (for_items Conditional_call).
Local Notation iteration := (iteration Conditional_call device).
Local Notation while_loop := (while_loop Conditional_call device).
Local Notation rounds := (rounds Conditional_call device).
Local Notation Stays := (stays Conditional_call).
Local Notation main :=
  (main Conditional_init Conditional_call device check_args).

Lemma for_items_incl m rs items :
  forall cs w cs' w',
    for_items m rs items cs w = (Ok cs', w') -> incl cs' cs.
Proof.
  induction items as [|item rest IH]; intros cs w cs' w' H.
  - simpl in H. unfold ret in H. inversion H; subst. apply incl_refl.
  - rewrite for_items_cons in H.
    destruct (Conditional_call (raw item) rs) as [[|]|e]; try discriminate.
    + destruct m.
      * inversion H; subst. intros x [].
      * destruct (remove_first item cs) as [cs0|] eqn:Hrm; [|discriminate].
        eapply incl_tran; [eapply IH; eauto|].
        now apply (remove_first_incl item).
    + eapply IH; eauto.
Qed.

Lemma while_loop_course p commands pool fuel :
  forall st w r w',
    incl (conditionals st) pool ->
    while_loop fuel p commands st w = (r, w') ->
    exists evs,
      log w' = log w ++ evs /\
      course pool (param_interval p) (calls w) evs.
Proof.
  induction fuel as [|fuel IH]; intros st w r w' Hpool H.
  - simpl in H. exists [].
    destruct (0 <? retries st); inversion H; subst;
      (split; [now rewrite app_nil_r|constructor]).
  - rewrite while_loop_eq in H.
    destruct (0 <? retries st).
    2:{ inversion H; subst. exists [].
        split; [now rewrite app_nil_r|constructor]. }
    destruct (iteration p commands st w) as [r1 w1] eqn:Hit.
    pose proof Hit as Hshape. rewrite iteration_eq in Hshape.
    destruct (device (calls w) commands) as [rs|msg|e].
    + destruct (for_items _ rs _ _ (ran w)) as [r2 w2] eqn:Hfor.
      destruct (for_items_log _ _ _ _ _ _ _ _ Hfor)
        as [called [rest [Hsnap Hw2]]].
      assert (Hcalled : incl called pool).
      { intros x Hx. apply Hpool. rewrite Hsnap.
        apply in_or_app. now left. }
      subst w2. rewrite ran_extend in Hshape.
      assert (Hlast : forall r0,
                 (r0, {| calls := S (calls w);
                         log := log w ++ EvRun (calls w) :: map EvCall called |})
                 = (r, w') ->
                 exists evs, log w' = log w ++ evs /\
                             course pool (param_interval p) (calls w) evs).
      { intros r0 H0. inversion H0; subst. eexists. split; [reflexivity|].
        now constructor. }
      destruct r2 as [cs|e|j|].
      * destruct (is_empty cs) eqn:Hempty.
        -- inversion Hshape; subst. eapply Hlast; eauto.
        -- destruct (sleep_error (param_interval p)).
           ++ inversion Hshape; subst. eapply Hlast; eauto.
           ++ inversion Hshape; subst. clear Hshape.
              apply IH in H as [evs [Hlog Hcourse]].
              ** exists (EvRun (calls w) :: map EvCall called ++
                           EvSleep (param_interval p) :: evs).
                 split.
                 --- rewrite Hlog. simpl.
                     repeat (rewrite <- app_assoc || rewrite <- app_comm_cons).
                     reflexivity.
                 --- now constructor.
              ** simpl. eapply incl_tran; [|exact Hpool].
                 eapply for_items_incl; eauto.
      * inversion Hshape; subst. eapply Hlast; eauto.
      * inversion Hshape; subst. eapply Hlast; eauto.
      * inversion Hshape; subst. eapply Hlast; eauto.
    + inversion Hshape; subst. inversion H; subst.
      exists [EvRun (calls w)]. split; [reflexivity|].
      apply (course_last pool _ _ []). intros x [].
    + inversion Hshape; subst. inversion H; subst.
      exists [EvRun (calls w)]. split; [reflexivity|].
      apply (course_last pool _ _ []). intros x [].
Qed.

(** X13: whatever the collaborators do, what [main] adds to the log is
    a sequence of rounds: the executions are numbered consecutively,
    conditions are only evaluated after the execution of their round
    and only conditions built from [wait_for], and every sleep lasts
    [interval] seconds and comes at the end of a round. *)
Theorem run_is_rounds p w :
  exists evs,
    log (snd (main p w)) = log w ++ evs /\
    course (objects 0 (given_wait_for p)) (param_interval p) (calls w) evs.
Proof.
  destruct (first_rejected Conditional_init (given_wait_for p))
    as [Hacc|[pre [c [post [e [Heq [Hpre Hc]]]]]]].
  - rewrite (main_accepted _ _ _ check_args) by assumption.
    destruct (while_loop _ p _ _ w) as [r w1] eqn:Hloop.
    apply (while_loop_course _ _ (objects 0 (given_wait_for p))) in Hloop
      as [evs [Hlog Hcourse]]; [|apply incl_refl].
    exists evs. split; [|assumption].
    destruct r as [st|e|j|]; simpl; try rewrite finish_world; assumption.
  - rewrite main_eq, Heq, (build_rejected _ _ _ _ _ _ Hpre Hc).
    exists []. destruct e; simpl;
      (split; [now rewrite app_nil_r|constructor]).
Qed.

(** X14: under [all], the [failed_conditions] of a failed run are
    exactly the conditions of [wait_for], in their order, that evaluated
    to true in none of the [retries] rounds; a condition that held in
    one round is not reported, even if it no longer holds at the end. *)
Theorem all_failed_conditions p w msg failed exc w' :
  param_match p = match_all ->
  main p w = (Exit (fail_json msg (Some failed) exc), w') ->
  forall history,
    (forall j, (j < Z.to_nat (param_retries p))%nat ->
               device (calls w + j)%nat (param_commands p)
               = Responded (history j)) ->
    failed =
    map raw
        (filter (fun item =>
                   forallb (fun j => Stays (history j) item)
                           (seq 0 (Z.to_nat (param_retries p))))
                (objects 0 (given_wait_for p))).
Proof.
  intros Hall H history Hh.
  destruct (first_rejected Conditional_init (given_wait_for p))
    as [Hacc|[pre [c [post [e [Heq [Hpre Hc]]]]]]].
  2:{ rewrite main_eq, Heq, (build_rejected _ _ _ _ _ _ Hpre Hc) in H.
      destruct e; discriminate. }
  rewrite (main_accepted _ _ _ check_args) in H by assumption.
  destruct (while_loop _ p _ _ w) as [[st|e|j|] w1] eqn:Hloop;
    try discriminate.
  2:{ apply while_loop_exit in Hloop as [m ->]. discriminate. }
  unfold finish, bind in H.
  destruct (conditionals st) as [|c cs] eqn:Hcs.
  { simpl in H. destruct (responses st); discriminate. }
  simpl in H. inversion H; subst msg failed exc w1. clear H.
  apply while_loop_inv in Hloop
    as [[Hr Hle]|[stk [wk [_ [_ Hbreak]]]]].
  2:{ apply iteration_inv in Hbreak
        as [rs [cs' [w0 [_ [_ [[_ [_ Hf]]|[_ [_ [_ Hf]]]]]]]]];
        inversion Hf; subst st. discriminate. }
  destruct (rounds_all_history _ _ _ _ _ _ _ _ Hall Hr
              (objects_NoDup 0 (given_wait_for p))) as [k [Hc Hhist]].
  destruct (rounds_counts _ _ _ _ _ _ _ _ Hr) as [k' [Hk [Hc' [_ [_ Hz]]]]].
  assert (k' = k) by lia. subst k'. simpl retries in Hk.
  assert (Hn : Z.to_nat (param_retries p) = k) by (destruct Hz; lia).
  rewrite Hn in Hh |- *.
  change (raw c :: map raw cs) with (map raw (c :: cs)).
  rewrite <- Hcs. f_equal. now apply Hhist.
Qed.

End Shape.

(** ** The attempts of a run *)

Section Attempts.

Variable Conditional_init : string -> returned unit.
Variable Conditional_call : string -> list value -> returned bool.
Variable device : nat -> list Command -> reply.
Variable check_args : params -> list string -> list string.

Local Notation accepted := (accepted Conditional_init).
Local Notation iteration := (iteration Conditional_call device).
Local Notation while_loop := (while_loop Conditional_call device).
Local Notation main :=
  (main Conditional_init Conditional_call device check_args).




End Attempts.

(** ** The further properties at concrete runs *)

Lemma retry_exhaustion_report_witness :
  msg_failed = msg_failed /\ @None exn = None /\
  [huawei] <> [] /\ incl [huawei] (given_wait_for (version_task 3)) /\
  (param_match (version_task 3) = match_any ->
   [huawei] = given_wait_for (version_task 3)) /\
  executions (log (snd (run ios (version_task 3) boot))) =
  (executions (log boot) + Z.to_nat (param_retries (version_task 3)))%nat /\
  sleeps (log (snd (run ios (version_task 3) boot))) =
  (sleeps (log boot) + Z.to_nat (param_retries (version_task 3)))%nat.
Proof.
  apply (retry_exhaustion_report init eval (steady ios) no_check
           (version_task 3) boot msg_failed [huawei] None
           (snd (run ios (version_task 3) boot))).
  vm_compute. reflexivity.
Defined.

Lemma success_report_witness :
  exists k,
    (1 <= k <= Z.to_nat (param_retries (version_task 10)))%nat /\
    executions (log (snd (run vrp (version_task 10) boot))) =
    (executions (log boot) + k)%nat /\
    sleeps (log (snd (run vrp (version_task 10) boot))) =
    (sleeps (log boot) + k - 1)%nat /\
    steady vrp (calls boot + k - 1)%nat (param_commands (version_task 10)) =
    Responded vrp /\
    to_lines vrp = to_lines vrp /\
    @nil string = warnings_of no_check (version_task 10) /\
    false = false.
Proof.
  apply (success_report init eval (steady vrp) no_check
           (version_task 10) boot false [] vrp (to_lines vrp)
           (snd (run vrp (version_task 10) boot))).
  vm_compute. reflexivity.
Defined.





Lemma all_outstanding_history_witness :
  exists k,
    calls (snd (two_round (two_start match_all) boot)) = (calls boot + k)%nat /\
    retries (two_later 9) = param_retries (two_task match_all) - Z.of_nat k /\
    forall history,
      (forall j, (j < k)%nat ->
                 steady vrp_no_board (calls boot + j)%nat
                        (param_commands (two_task match_all))
                 = Responded (history j)) ->
      conditionals (two_later 9) =
      filter (fun item =>
                forallb (fun j => stays eval (history j) item) (seq 0 k))
             (objects 0 [huawei; board]).
Proof.
  apply (all_outstanding_history eval (steady vrp_no_board)
           (two_task match_all) (param_commands (two_task match_all))
           0 [huawei; board] boot (two_later 9)
           (snd (two_round (two_start match_all) boot))).
  - reflexivity.
  - apply rounds_more with
      (st1 := two_later 9)
      (w1 := snd (two_round (two_start match_all) boot)).
    + simpl. lia.
    + vm_compute. reflexivity.
    + apply rounds_here.
Defined.

Lemma all_failed_conditions_witness :
  [board] =
  map raw
      (filter (fun item =>
                 forallb (fun j => stays eval ((fun _ => vrp_no_board) j) item)
                         (seq 0 (Z.to_nat (param_retries (two_task match_all)))))
              (objects 0 (given_wait_for (two_task match_all)))).
Proof.
  apply (all_failed_conditions init eval (steady vrp_no_board) no_check
           (two_task match_all) boot msg_failed [board] None
           (snd (run vrp_no_board (two_task match_all) boot))).
  - reflexivity.
  - vm_compute. reflexivity.
  - intros j _. reflexivity.
Defined.


